(** * The chat relay of server.go: registry, history log and broadcaster

    The server is a [ChatServer] value shared by many goroutines: one per
    inbound RPC, the broadcaster started by [NewChatServer], and one
    delivery goroutine per recipient and message.  The embedding is a
    small-step interleaving semantics.  Every access to shared state is one
    atomic action: a critical section of [c.mu], a send on the buffered
    channel [c.broadcast], or a receive from it.  What the network does
    (whether [rpc.Dial] or [cli.Call] succeeds) is chosen by the action. *)

From stdpp Require Import base gmap strings list fin_maps.

(** ** Wire types (server.go, lines 12-24) *)

Record MessageArgs := mkMessageArgs { Sender : string; Text : string }.

Record RegisterArgs := mkRegisterArgs { ID : string; Addr : string }.

(** ** Go slices of strings

    A slice is a window on a backing array; two slices alias when they share
    the array.  The heap is the list of all backing arrays allocated so far,
    an address is an index into it.  The server never re-slices, so every
    window starts at offset 0. *)

Record slice := mkSlice {
  s_arr : option nat;   (* backing array; [None] for the nil slice *)
  s_len : nat;
  s_cap : nat
}.

Abbreviation heap := (list (list string)).

Definition nil_slice : slice := mkSlice None 0 0.

(** The capacity the runtime picks when [append] has to reallocate is not
    fixed by the language: it is a parameter, given the old capacity and the
    length needed.  [go_append] never allocates less than it needs. *)
Class GoRuntime := growslice : nat → nat → nat.

Definition backing (h : heap) (s : slice) : list string :=
  match s_arr s with
  | Some a => default [] (h !! a)
  | None => []
  end.

(** The elements [s[0], ..., s[len-1]] as the heap now has them. *)
Definition elems (h : heap) (s : slice) : list string :=
  take (s_len s) (backing h s).

(** [append(s, xs...)]: in place when the capacity suffices, else into a
    fresh array that receives a copy of the old elements. *)
Definition go_append `{!GoRuntime} (h : heap) (s : slice) (xs : list string)
    : heap * slice :=
  let n := s_len s + length xs in
  if decide (n ≤ s_cap s) then
    match s_arr s with
    | Some a =>
        (alter (list_inserts (s_len s) xs) a h, mkSlice (Some a) n (s_cap s))
    | None => (h, s)
    end
  else
    let c := n `max` growslice (s_cap s) n in
    (h ++ [elems h s ++ xs ++ replicate (c - n) ""],
     mkSlice (Some (length h)) n c).

(** ** Server state (server.go, lines 26-32) *)

(** A [*rpc.Client] is known by its identity: the n-th connection that
    [rpc.Dial] has opened. *)
Abbreviation conn := nat.

(** [mu] has no field of its own: a critical section is one atomic action. *)
Record ChatServer := mkChatServer {
  msgs : slice;
  clients : gmap string conn;
  broadcast : list MessageArgs   (* buffer of the channel, oldest first *)
}.

(** [make(chan MessageArgs, 100)] *)
Definition broadcast_cap : nat := 100.

(** A delivery goroutine [go func(id, cli, m)] that has not yet run.
    [t_seq] is a history variable, the number of the dequeue that spawned
    it; no action reads it. *)
Record task := mkTask {
  t_seq : nat;
  t_id : string;
  t_cli : conn;
  t_msg : MessageArgs
}.

(** An RPC goroutine that left its critical section and stands at
    [c.broadcast <- m]; [p_reply] is the [reply.Messages] it will hand back
    ([None] for the [struct{}] replies of Register and Unregister). *)
Record parked := mkParked {
  p_msg : MessageArgs;
  p_reply : option slice
}.

Record world := mkWorld {
  srv : ChatServer;
  mem : heap;
  closed : list conn;            (* every [cli.Close()] so far, in order *)
  dialed : nat;                  (* connections opened by [rpc.Dial] *)
  sending : list parked;
  received : option MessageArgs; (* [msg] of the broadcaster's loop body *)
  dequeued : nat;                (* history variable: receives so far *)
  tasks : list task
}.

(** [NewChatServer] (lines 34-38) *)
Definition NewChatServer : world :=
  mkWorld (mkChatServer nil_slice ∅ []) [] [] 0 [] None 0 [].

Definition history (w : world) : list string := elems (mem w) (msgs (srv w)).

(** What an action lets the outside see. *)
Inductive event :=
  | EvError (id addr : string)       (* the RPC returned a non-nil error *)
  | EvReturn (reply : option slice)  (* the RPC returned nil *)
  | EvCall (t : task) (ok : bool)    (* [cli.Call("Client.Receive", m)] *)
  | EvSilent.

(** ** The four RPC methods *)

Section Methods.
Context `{!GoRuntime}.

(** [Register] (lines 74-88), up to the channel send.  [dial_ok] is the
    outcome of [rpc.Dial]. *)
Definition Register (args : RegisterArgs) (dial_ok : bool) (w : world)
    : world * event :=
  if dial_ok then
    let cli := dialed w in
    let joinMsg := "User " +:+ ID args +:+ " joined" in
    let '(h, s) := go_append (mem w) (msgs (srv w)) [joinMsg] in
    (mkWorld
       (mkChatServer s (<[ID args := cli]> (clients (srv w)))
                     (broadcast (srv w)))
       h (closed w) (S (dialed w))
       (sending w ++ [mkParked (mkMessageArgs (ID args) joinMsg) None])
       (received w) (dequeued w) (tasks w),
     EvSilent)
  else (w, EvError (ID args) (Addr args)).

(** [Unregister] (lines 91-103), up to the channel send. *)
Definition Unregister (args : RegisterArgs) (w : world) : world * event :=
  let '(cs, cl) :=
    match clients (srv w) !! ID args with
    | Some cli => (delete (ID args) (clients (srv w)), closed w ++ [cli])
    | None => (clients (srv w), closed w)
    end in
  let leaveMsg := "User " +:+ ID args +:+ " left" in
  let '(h, s) := go_append (mem w) (msgs (srv w)) [leaveMsg] in
  (mkWorld
     (mkChatServer s cs (broadcast (srv w)))
     h cl (dialed w)
     (sending w ++ [mkParked (mkMessageArgs (ID args) leaveMsg) None])
     (received w) (dequeued w) (tasks w),
   EvSilent).

(** [Send] (lines 106-116), up to the channel send. *)
Definition Send (args : MessageArgs) (w : world) : world * event :=
  let entry := Sender args +:+ ": " +:+ Text args in
  let '(h1, s) := go_append (mem w) (msgs (srv w)) [entry] in
  let '(h2, r) := go_append h1 nil_slice (elems h1 s) in
  (mkWorld
     (mkChatServer s (clients (srv w)) (broadcast (srv w)))
     h2 (closed w) (dialed w)
     (sending w ++ [mkParked args (Some r)])
     (received w) (dequeued w) (tasks w),
   EvSilent).

(** [History] (lines 119-124). *)
Definition History (w : world) : world * event :=
  let '(h, r) := go_append (mem w) nil_slice (history w) in
  (mkWorld (srv w) h (closed w) (dialed w) (sending w) (received w)
           (dequeued w) (tasks w),
   EvReturn (Some r)).

(** [c.broadcast <- m] of the [i]-th parked goroutine, and the
    [return nil] after it.  A full buffer gives no step: the goroutine
    stays parked. *)
Definition chan_send (i : nat) (w : world) : option (world * event) :=
  match sending w !! i with
  | Some p =>
      if decide (length (broadcast (srv w)) < broadcast_cap) then
        Some (mkWorld
                (mkChatServer (msgs (srv w)) (clients (srv w))
                              (broadcast (srv w) ++ [p_msg p]))
                (mem w) (closed w) (dialed w) (delete i (sending w))
                (received w) (dequeued w) (tasks w),
              EvReturn (p_reply p))
      else None
  | None => None
  end.

(** ** The broadcaster (lines 40-69) *)

(** [for msg := range c.broadcast]: the single consumer takes the oldest
    message, when its previous loop body is over. *)
Definition chan_recv (w : world) : option (world * event) :=
  match received w, broadcast (srv w) with
  | None, m :: q =>
      Some (mkWorld
              (mkChatServer (msgs (srv w)) (clients (srv w)) q)
              (mem w) (closed w) (dialed w) (sending w)
              (Some m) (dequeued w) (tasks w),
            EvSilent)
  | _, _ => None
  end.

(** The goroutines that lines 50-67 start for [msg] over the copied map
    [snap]. *)
Definition spawn (n : nat) (msg : MessageArgs) (snap : gmap string conn)
    : list task :=
  (λ ic, mkTask n ic.1 ic.2 msg) <$>
    filter (λ ic, ic.1 ≠ Sender msg) (map_to_list snap).

(** Lines 43-67: copy the map under the lock, then start one goroutine per
    entry other than the sender's. *)
Definition fanout (w : world) : option (world * event) :=
  match received w with
  | Some msg =>
      let snap := clients (srv w) in
      Some (mkWorld (srv w) (mem w) (closed w) (dialed w) (sending w)
                    None (S (dequeued w))
                    (tasks w ++ spawn (dequeued w) msg snap),
            EvSilent)
  | None => None
  end.

(** Lines 55-66: the [i]-th delivery goroutine runs; [ok] is the outcome
    of [cli.Call]. *)
Definition deliver (i : nat) (ok : bool) (w : world)
    : option (world * event) :=
  match tasks w !! i with
  | Some t =>
      if ok then
        Some (mkWorld (srv w) (mem w) (closed w) (dialed w) (sending w)
                      (received w) (dequeued w) (delete i (tasks w)),
              EvCall t true)
      else
        Some (mkWorld
                (mkChatServer (msgs (srv w))
                              (delete (t_id t) (clients (srv w)))
                              (broadcast (srv w)))
                (mem w) (closed w ++ [t_cli t]) (dialed w) (sending w)
                (received w) (dequeued w) (delete i (tasks w)),
              EvCall t false)
  | None => None
  end.

(** ** Interleavings *)

Inductive action :=
  | ARegister (args : RegisterArgs) (dial_ok : bool)
  | AUnregister (args : RegisterArgs)
  | ASend (args : MessageArgs)
  | AHistory
  | AChanSend (i : nat)
  | AChanRecv
  | AFanout
  | ADeliver (i : nat) (ok : bool).

(** [None]: the action cannot happen in [w] (a blocked goroutine, or a
    goroutine that does not exist). *)
Definition step (a : action) (w : world) : option (world * event) :=
  match a with
  | ARegister args ok => Some (Register args ok w)
  | AUnregister args => Some (Unregister args w)
  | ASend args => Some (Send args w)
  | AHistory => Some (History w)
  | AChanSend i => chan_send i w
  | AChanRecv => chan_recv w
  | AFanout => fanout w
  | ADeliver i ok => deliver i ok w
  end.

Fixpoint run (acts : list action) (w : world)
    : option (world * list event) :=
  match acts with
  | [] => Some (w, [])
  | a :: acts =>
      match step a w with
      | Some (w1, e) =>
          match run acts w1 with
          | Some (w2, es) => Some (w2, e :: es)
          | None => None
          end
      | None => None
      end
  end.

Definition reachable (w : world) : Prop :=
  ∃ acts es, run acts NewChatServer = Some (w, es).

End Methods.

(** ** A small run, for the examples *)

(** A runtime that doubles the capacity. *)
Definition doubling : GoRuntime := λ old _, 2 * old.

(** The state a run from [NewChatServer] ends in, under [doubling]. *)
Definition after (acts : list action) : world :=
  match run (H:=doubling) acts NewChatServer with
  | Some (w, _) => w
  | None => NewChatServer
  end.

Definition alice_in := mkRegisterArgs "Alice" "127.0.0.1:4001".
Definition alice_again := mkRegisterArgs "Alice" "127.0.0.1:4003".
Definition bob_in := mkRegisterArgs "Bob" "127.0.0.1:4002".
Definition bob_again := mkRegisterArgs "Bob" "127.0.0.1:4004".
Definition carol_out := mkRegisterArgs "Carol" "127.0.0.1:4009".
Definition hi := mkMessageArgs "Alice" "hi".
Definition alice_joined := mkMessageArgs "Alice" "User Alice joined".

(** Alice and Bob have joined and both Register calls have returned. *)
Definition two_joined : list action :=
  [ARegister alice_in true; AChanSend 0; ARegister bob_in true; AChanSend 0].

(** The broadcaster has taken Alice's join notice off the channel ... *)
Definition first_received : list action := two_joined ++ [AChanRecv].

(** ... and has started the delivery goroutines for it: one, to Bob. *)
Definition first_fanned : list action := first_received ++ [AFanout].

Definition to_bob : task := mkTask 0 "Bob" 1 alice_joined.

(** Alice registers, then registers again from another address. *)
Definition rejoin : list action :=
  [ARegister alice_in true; ARegister alice_again true].

(** A delivery to Bob is in flight; Bob registers again; the delivery
    fails. *)
Definition rejoin_then_evict : list action :=
  first_fanned ++ [ARegister bob_again true; ADeliver 0 false].

(** ** Well-formedness of the live state *)

(** A slice describes its backing array: the array exists and has [s_cap]
    cells, of which the first [s_len] are in use. *)
Definition slice_ok (h : heap) (s : slice) : Prop :=
  match s_arr s with
  | Some a => ∃ cells, h !! a = Some cells ∧ length cells = s_cap s
                       ∧ s_len s ≤ s_cap s
  | None => s_len s = 0 ∧ s_cap s = 0
  end.

(** [r] shares no storage with the slice [s] that the server keeps
    appending to. *)
Definition detached (h : heap) (s r : slice) : Prop :=
  match s_arr r with
  | Some b => b < length h ∧ s_arr s ≠ Some b
  | None => True
  end.

Definition aliases (s r : slice) : Prop :=
  ∃ a, s_arr s = Some a ∧ s_arr r = Some a.

Definition wf (w : world) : Prop := slice_ok (mem w) (msgs (srv w)).

Definition snapshot_of (w : world) (r : slice) : Prop :=
  detached (mem w) (msgs (srv w)) r.

(** From [(h, s)] to [(h', s')] the live slice only gained elements, and no
    slice detached from it was written. *)
Definition grows (h : heap) (s : slice) (h' : heap) (s' : slice) : Prop :=
  slice_ok h' s'
  ∧ elems h s `prefix_of` elems h' s'
  ∧ ∀ r, detached h s r → detached h' s' r ∧ backing h' r = backing h r.

(** The snapshot that an action hands to an RPC caller: [History] returns it
    at once, [Send] keeps it in [reply] until its channel send is over. *)
Definition snapshot_made (a : action) (w1 : world) (e : event)
    : option slice :=
  match a, e with
  | AHistory, EvReturn r => r
  | ASend _, _ => last (sending w1) ≫= p_reply
  | _, _ => None
  end.

(** Every delivery goroutine in flight was started for an earlier dequeue,
    for a recipient other than its message's sender, and only once. *)
Definition task_ok (w : world) (t : task) : Prop :=
  t_seq t < dequeued w ∧ t_id t ≠ Sender (t_msg t).

Definition tasks_ok (w : world) : Prop :=
  Forall (task_ok w) (tasks w) ∧ NoDup (tasks w).

(** Some registry entry holds the connection. *)
Definition held (w : world) (cli : conn) : Prop :=
  ∃ id, clients (srv w) !! id = Some cli.

(** ** Registry and pipeline *)

(** Every connection in the registry was dialed and is not closed, no two
    identifiers share one, every closed connection was dialed, and the
    connection a delivery goroutine carries can be in the registry only
    under that goroutine's identifier. *)
Definition registry_ok (w : world) : Prop :=
  (∀ id c, clients (srv w) !! id = Some c → c < dialed w ∧ c ∉ closed w)
  ∧ (∀ id id' c, clients (srv w) !! id = Some c →
       clients (srv w) !! id' = Some c → id = id')
  ∧ (∀ c, c ∈ closed w → c < dialed w)
  ∧ (∀ t, t ∈ tasks w →
       t_cli t < dialed w
       ∧ ∀ id, clients (srv w) !! id = Some (t_cli t) → id = t_id t).

(** The actions of the channel and the broadcaster, as opposed to the RPCs. *)
Definition is_engine (a : action) : bool :=
  match a with
  | AChanSend _ | AChanRecv | AFanout | ADeliver _ _ => true
  | _ => false
  end.

(** The actions that can change the registry. *)
Definition touches_registry (a : action) : bool :=
  match a with
  | ARegister _ true | AUnregister _ | ADeliver _ false => true
  | _ => false
  end.

(** Nothing is parked, buffered, in the broadcaster's hands or in flight. *)
Definition quiescent (w : world) : Prop :=
  sending w = [] ∧ broadcast (srv w) = [] ∧ received w = None ∧ tasks w = [].

(** The log has an entry for the message: its text as it is (a join or
    leave notice) or behind the sender's name (a Send). *)
Definition logged (w : world) (m : MessageArgs) : Prop :=
  Text m ∈ history w ∨ (Sender m +:+ ": " +:+ Text m) ∈ history w.

Definition pipeline_logged (w : world) : Prop :=
  (∀ p, p ∈ sending w → logged w (p_msg p))
  ∧ (∀ m, m ∈ broadcast (srv w) → logged w m)
  ∧ (∀ m, received w = Some m → logged w m)
  ∧ (∀ t, t ∈ tasks w → logged w (t_msg t)).

(** Messages the broadcaster holds between its receive and its fan-out. *)
Definition in_hand (w : world) : nat :=
  match received w with Some _ => 1 | None => 0 end.

(** The message an RPC leaves for the channel and the entry it appends to
    the log, both in its one critical section. *)
Definition announced (a : action) : option (MessageArgs * string) :=
  match a with
  | ARegister args true =>
      let joinMsg := "User " +:+ ID args +:+ " joined" in
      Some (mkMessageArgs (ID args) joinMsg, joinMsg)
  | AUnregister args =>
      let leaveMsg := "User " +:+ ID args +:+ " left" in
      Some (mkMessageArgs (ID args) leaveMsg, leaveMsg)
  | ASend args => Some (args, Sender args +:+ ": " +:+ Text args)
  | _ => None
  end.

(** [w'] is reached from [w] by the channel and the broadcaster alone, with
    every delivery succeeding. *)
Definition calmly `{!GoRuntime} (w w' : world) : Prop :=
  ∃ acts es, run acts w = Some (w', es)
             ∧ Forall (λ a, is_engine a = true ∧ touches_registry a = false)
                      acts.

(** ** The client (client.go) *)

(** The line feed. *)
Definition nl : string := String (Ascii.ascii_of_nat 10) EmptyString.

(** [formatIncoming] (lines 39-43) *)
Definition formatIncoming (m : MessageArgs) : string := Text m.

(** What [Receive] prints (lines 33-37). *)
Definition Receive (m : MessageArgs) : string :=
  nl +:+ formatIncoming m +:+ nl +:+ "> ".

(** The arguments of the Send RPC for a typed line (line 123). *)
Definition chat_args (name text : string) : MessageArgs :=
  mkMessageArgs name (name +:+ ": " +:+ text).

(** A [time.Duration] is a signed 64-bit count of nanoseconds. *)
Definition wrap64 (z : Z) : Z := ((z + 2 ^ 63) `mod` 2 ^ 64 - 2 ^ 63)%Z.

Definition Second : Z := 1000000000%Z.

(** The loop of [dialWithRetry] (lines 49-57) with [n] iterations left, at
    attempt [i].  [dial i] is the outcome of the [i]-th [rpc.Dial]; the
    result is the attempt that connected, if any, and the durations slept,
    in order. *)
Fixpoint dial_loop (n i : nat) (backoff : Z) (dial : nat → bool)
    : option nat * list Z :=
  match n with
  | 0 => (None, [])
  | S n =>
      if dial i then (Some i, [])
      else
        let '(r, slept) := dial_loop n (S i) (wrap64 (backoff * 2)) dial in
        (r, backoff :: slept)
  end.

(** [dialWithRetry] (lines 45-59) *)
Definition dialWithRetry (dial : nat → bool) : option nat * list Z :=
  dial_loop 5 0 Second dial.

Definition total_sleep (slept : list Z) : Z := foldr Z.add 0%Z slept.

(** What the client process does, in order. *)
Inductive request :=
  | ReqUnregister (a : RegisterArgs)
  | ReqHistory
  | ReqSend (a : MessageArgs).

Inductive effect :=
  | CPrint (s : string)              (* bytes written to stdout *)
  | CLog (s : string)                (* a [log.Printf], by its prefix *)
  | CCall (h : nat) (r : request)    (* [server.Call] on connection [h] *)
  | CClose (h : nat)                 (* [server.Close()] *)
  | CSleep (d : Z)
  | CCloseListener.

(** [printHistory] (lines 61-67) *)
Definition printHistory (msgs : list string) : list effect :=
  [CPrint ("--- Chat history ---" +:+ nl)]
  ++ ((λ m, CPrint (m +:+ nl)) <$> msgs)
  ++ [CPrint ("--------------------" +:+ nl)].

(** The log line and the sleep of each failed attempt of [dialWithRetry]. *)
Definition redial_effects (slept : list Z) : list effect :=
  slept ≫= (λ d, [CLog "dial error"; CSleep d]).

(** One pass of the command loop after a line was read and trimmed (lines
    106-140).  [l_res1] and [l_res2] are the outcomes of the first and, if
    it is made, the second [server.Call] of the pass: [None] for an error,
    else the [Messages] of the reply.  [server] is [None] for a nil
    [*rpc.Client], on which [Call] panics. *)
Record line := mkLine {
  l_text : string;
  l_res1 : option (list string);
  l_res2 : option (list string);
  l_dial : nat → bool
}.

Inductive control := Continue | Break | Panic.

Definition client_line (name localAddr : string) (server : option nat)
    (l : line) : control * option nat * list effect :=
  match server with
  | None => (Panic, None, [])
  | Some h =>
      if decide (l_text l = "exit") then
        (Break, Some h,
         [CCall h (ReqUnregister (mkRegisterArgs name localAddr));
          CPrint ("bye" +:+ nl)])
      else if decide (l_text l = "history") then
        match l_res1 l with
        | None =>
            (Continue, Some h, [CCall h ReqHistory; CLog "history call error"])
        | Some msgs => (Continue, Some h, CCall h ReqHistory :: printHistory msgs)
        end
      else
        let args := chat_args name (l_text l) in
        match l_res1 l with
        | Some msgs =>
            (Continue, Some h, CCall h (ReqSend args) :: printHistory msgs)
        | None =>
            let '(r, slept) := dialWithRetry (l_dial l) in
            let pre := [CCall h (ReqSend args); CLog "send error"; CClose h]
                       ++ redial_effects slept in
            match r with
            | None => (Continue, None, pre ++ [CLog "reconnect failed"])
            | Some _ =>
                let h' := S h in
                match l_res2 l with
                | None =>
                    (Continue, Some h',
                     pre ++ [CCall h' (ReqSend args);
                             CLog "send after reconnect failed"])
                | Some msgs =>
                    (Continue, Some h',
                     pre ++ CCall h' (ReqSend args) :: printHistory msgs)
                end
            end
        end
  end.

(** The command loop (lines 99-141) over the lines still to be read; when
    they run out [ReadString] fails. *)
Fixpoint client_loop (name localAddr : string) (server : option nat)
    (ls : list line) : control * option nat * list effect :=
  match ls with
  | [] => (Break, server, [CPrint "> "; CLog "read error"])
  | l :: ls =>
      let '(c, server', effs) := client_line name localAddr server l in
      match c with
      | Continue =>
          let '(c', server'', effs') :=
            client_loop name localAddr server' ls in
          (c', server'', CPrint "> " :: effs ++ effs')
      | _ => (c, server', CPrint "> " :: effs)
      end
  end.

(** The loop and the cleanup after it (lines 98-145), from a connected and
    registered client.  [server.Close()] on a nil client panics too. *)
Definition client_session (name localAddr : string) (h : nat)
    (ls : list line) : control * list effect :=
  let '(c, server, effs) := client_loop name localAddr (Some h) ls in
  match c, server with
  | Panic, _ => (Panic, effs)
  | _, None => (Panic, effs)
  | _, Some h' => (Break, effs ++ [CClose h'; CCloseListener])
  end.

(** An unreachable server, and a line that fails to go through. *)
Definition never_up : nat → bool := λ _, false.
Definition up_at_third : nat → bool := λ i, bool_decide (i = 2).
Definition lost_line : line := mkLine "hello" None None never_up.

(** ** More small runs, for the examples *)

(** After both joins: Alice sends, her call returns, the broadcaster takes
    the oldest message (Alice's join notice), fans it out and the delivery
    to Bob succeeds. *)
Definition quiet_acts : list action :=
  [ASend hi; AChanSend 0; AChanRecv; AFanout; ADeliver 0 true].

(** Both joins, and the pipeline drained. *)
Definition settled : list action :=
  first_fanned ++ [AChanRecv; AFanout; ADeliver 0 true; ADeliver 0 true].

(** * Slices *)

Section SliceFacts.
Context `{!GoRuntime}.

Lemma slice_ok_nil h : slice_ok h nil_slice.
Proof. by split. Qed.

Lemma elems_nil h : elems h nil_slice = [].
Proof. done. Qed.

Lemma write_in_place (cells xs : list string) n :
  n + length xs ≤ length cells →
  take (n + length xs) (list_inserts n xs cells) = take n cells ++ xs.
Proof.
  intros Hfit. apply list_eq; intros j.
  destruct (decide (j < n)) as [Hlt | Hge].
  - rewrite lookup_take_lt by lia.
    rewrite list_lookup_inserts_lt by done.
    rewrite lookup_app_l by (rewrite length_take; lia).
    by rewrite lookup_take_lt.
  - rewrite lookup_app_r by (rewrite length_take; lia).
    rewrite length_take, Nat.min_l by lia.
    destruct (decide (j < n + length xs)).
    + rewrite lookup_take_lt by done.
      apply list_lookup_inserts; lia.
    + rewrite lookup_take_ge by lia.
      symmetry. apply lookup_ge_None_2. lia.
Qed.

(** What one [append] does to the heap and to the slice it returns. *)
Lemma go_append_spec h s xs h' s' :
  slice_ok h s →
  go_append h s xs = (h', s') →
  slice_ok h' s'
  ∧ elems h' s' = elems h s ++ xs
  ∧ length h ≤ length h'
  ∧ (∀ b, b < length h → s_arr s ≠ Some b → h' !! b = h !! b)
  ∧ (s_arr s' = s_arr s ∨ s_arr s' = Some (length h)).
Proof.
  unfold go_append, slice_ok, elems, backing. intros Hok Happ.
  case_decide as Hfit.
  - destruct (s_arr s) as [a|] eqn:Harr.
    + destruct Hok as (cells & Hcells & Hlen & Hle).
      injection Happ as <- <-. simpl.
      rewrite list_lookup_alter_eq, Hcells. simpl.
      split_and!.
      * exists (list_inserts (s_len s) xs cells).
        by rewrite length_inserts.
      * apply write_in_place. lia.
      * by rewrite length_alter.
      * intros b _ Hb. apply list_lookup_alter_ne. congruence.
      * by left.
    + destruct Hok as [Hl Hc]. injection Happ as <- <-.
      rewrite Harr. rewrite Hl, Hc in Hfit.
      assert (xs = []) as -> by (destruct xs; simpl in *; [done | lia]).
      rewrite Hl. split_and!; try done. by left.
  - injection Happ as <- <-. simpl.
    rewrite lookup_app_r, Nat.sub_diag by done. simpl.
    set (old := take (s_len s) _).
    assert (length old = s_len s) as Hold.
    { subst old. rewrite length_take. destruct (s_arr s) as [a|].
      - destruct Hok as (cells & -> & ? & ?). simpl. lia.
      - destruct Hok as [-> _]. done. }
    split_and!.
    + eexists. split; [done |].
      rewrite !length_app, length_replicate, Hold. lia.
    + rewrite app_assoc, take_app_length'; [done |].
      by rewrite length_app, Hold.
    + rewrite length_app. simpl. lia.
    + intros b Hb _. by apply lookup_app_l.
    + by right.
Qed.

(** A detached slice stays detached, and keeps its cells, when the live
    slice is appended to. *)
Lemma go_append_live h s xs h' s' r :
  slice_ok h s → go_append h s xs = (h', s') → detached h s r →
  detached h' s' r ∧ backing h' r = backing h r.
Proof.
  intros Hok Happ Hdet.
  destruct (go_append_spec _ _ _ _ _ Hok Happ) as (_ & _ & Hlen & Hkeep & Hs').
  unfold detached, backing in *. destruct (s_arr r) as [b|]; [|done].
  destruct Hdet as [Hb Hne]. split_and!.
  - lia.
  - destruct Hs' as [-> | ->]; [done |]. intros [= <-]. lia.
  - by rewrite Hkeep.
Qed.

(** [append([]string(nil), xs...)]: the copy is detached from every slice
    that was there before, and nothing that was there is written. *)
Lemma go_append_copy h s xs h' r' :
  slice_ok h s → go_append h nil_slice xs = (h', r') →
  slice_ok h' s ∧ elems h' s = elems h s
  ∧ elems h' r' = xs ∧ detached h' s r'
  ∧ (∀ r, detached h s r → detached h' s r ∧ backing h' r = backing h r).
Proof.
  intros Hok Happ.
  destruct (go_append_spec _ _ _ _ _ (slice_ok_nil h) Happ)
    as (Hr' & Hel & Hlen & Hkeep & Harr).
  assert (∀ a cells, h !! a = Some cells → h' !! a = Some cells) as Hext.
  { intros a cells Ha. rewrite Hkeep; [done | | done].
    by eapply lookup_lt_Some. }
  split_and!.
  - unfold slice_ok in *. destruct (s_arr s) as [a|]; [|done].
    destruct Hok as (cells & ? & ? & ?). exists cells. eauto.
  - unfold elems, backing, slice_ok in *. destruct (s_arr s) as [a|]; [|done].
    destruct Hok as (cells & Ha & _). by rewrite Ha, (Hext _ _ Ha).
  - done.
  - unfold detached, slice_ok in *.
    destruct Harr as [Hn | Hf]; simpl in *.
    + by rewrite Hn.
    + rewrite Hf in Hr' |- *. destruct Hr' as (cells & Hc & _).
      split; [by eapply lookup_lt_Some |].
      destruct (s_arr s) as [a|]; [|done].
      destruct Hok as (? & Ha & _). apply lookup_lt_Some in Ha.
      intros [= ->]. lia.
  - intros r Hdet. unfold detached, backing in *.
    destruct (s_arr r) as [b|]; [|done].
    destruct Hdet as [Hb Hne]. split; [split; [lia | done] |].
    by rewrite Hkeep.
Qed.

End SliceFacts.

(** * The history log under interleaving *)

Section Log.
Context `{!GoRuntime}.

Lemma grows_refl h s : slice_ok h s → grows h s h s.
Proof. intros Hok. by split. Qed.

Lemma grows_trans h1 s1 h2 s2 h3 s3 :
  grows h1 s1 h2 s2 → grows h2 s2 h3 s3 → grows h1 s1 h3 s3.
Proof.
  intros (_ & Hp1 & Hd1) (Hok & Hp2 & Hd2). split_and!; [done | by etrans |].
  intros r Hr. destruct (Hd1 r Hr) as [Hr2 Hb1].
  destruct (Hd2 r Hr2) as [Hr3 Hb2]. split; [done | congruence].
Qed.

Lemma grows_append h s xs h' s' :
  slice_ok h s → go_append h s xs = (h', s') → grows h s h' s'.
Proof.
  intros Hok Happ.
  destruct (go_append_spec _ _ _ _ _ Hok Happ) as (Hok' & Hel & _).
  split_and!; [done | rewrite Hel; by apply prefix_app_r |].
  intros r. by apply go_append_live with xs.
Qed.

Lemma grows_copy h s xs h' r' :
  slice_ok h s → go_append h nil_slice xs = (h', r') → grows h s h' s.
Proof.
  intros Hok Happ.
  destruct (go_append_copy _ _ _ _ _ Hok Happ) as (Hok' & Hel & _ & _ & Hd).
  split_and!; [done | by rewrite Hel | done].
Qed.

Lemma Register_grows args ok w :
  wf w →
  grows (mem w) (msgs (srv w))
        (mem (Register args ok w).1) (msgs (srv (Register args ok w).1)).
Proof.
  intros Hwf. unfold Register. destruct ok; [| by apply grows_refl].
  destruct (go_append _ _ _) as [h s] eqn:Happ. simpl.
  by eapply grows_append.
Qed.

Lemma Unregister_grows args w :
  wf w →
  grows (mem w) (msgs (srv w))
        (mem (Unregister args w).1) (msgs (srv (Unregister args w).1)).
Proof.
  intros Hwf. unfold Unregister.
  destruct (clients (srv w) !! ID args);
    destruct (go_append _ _ _) as [h s] eqn:Happ; simpl;
    by eapply grows_append.
Qed.

Lemma Send_grows args w :
  wf w →
  grows (mem w) (msgs (srv w))
        (mem (Send args w).1) (msgs (srv (Send args w).1)).
Proof.
  intros Hwf. unfold Send.
  destruct (go_append (mem w) _ _) as [h1 s] eqn:Happ.
  destruct (go_append h1 _ _) as [h2 r] eqn:Hcopy. simpl.
  pose proof (grows_append _ _ _ _ _ Hwf Happ) as Hg.
  eapply grows_trans; [done |].
  eapply grows_copy; [apply Hg | done].
Qed.

Lemma History_grows w :
  wf w →
  grows (mem w) (msgs (srv w))
        (mem (History w).1) (msgs (srv (History w).1)).
Proof.
  intros Hwf. unfold History.
  destruct (go_append _ _ _) as [h r] eqn:Hcopy. simpl.
  by eapply grows_copy.
Qed.

(** The broadcaster and the channel never touch the log. *)
Lemma engine_keeps_log a w w' e :
  step a w = Some (w', e) →
  match a with
  | AChanSend _ | AChanRecv | AFanout | ADeliver _ _ => True
  | _ => False
  end →
  mem w' = mem w ∧ msgs (srv w') = msgs (srv w).
Proof.
  intros Hstep Ha. destruct a; try done; simpl in Hstep.
  - unfold chan_send in Hstep. destruct (sending w !! i); [|done].
    case_decide; [|done]. by injection Hstep as <- _.
  - unfold chan_recv in Hstep.
    destruct (received w), (broadcast (srv w)); try done.
    by injection Hstep as <- _.
  - unfold fanout in Hstep. destruct (received w); [|done].
    by injection Hstep as <- _.
  - unfold deliver in Hstep. destruct (tasks w !! i); [|done].
    destruct ok; by injection Hstep as <- _.
Qed.

Lemma step_grows a w w' e :
  wf w → step a w = Some (w', e) →
  grows (mem w) (msgs (srv w)) (mem w') (msgs (srv w')).
Proof.
  intros Hwf Hstep.
  destruct a;
    try (destruct (engine_keeps_log _ _ _ _ Hstep I) as [-> ->];
         by apply grows_refl);
    simpl in Hstep.
  - assert (w' = (Register args dial_ok w).1) as ->
      by (injection Hstep as Hw; by rewrite Hw).
    by apply Register_grows.
  - assert (w' = (Unregister args w).1) as ->
      by (injection Hstep as Hw; by rewrite Hw).
    by apply Unregister_grows.
  - assert (w' = (Send args w).1) as ->
      by (injection Hstep as Hw; by rewrite Hw).
    by apply Send_grows.
  - assert (w' = (History w).1) as ->
      by (injection Hstep as Hw; by rewrite Hw).
    by apply History_grows.
Qed.

End Log.

(** * Runs *)

Section Runs.
Context `{!GoRuntime}.

Lemma run_cons a acts w w' es :
  run (a :: acts) w = Some (w', es) →
  ∃ w1 e es', step a w = Some (w1, e) ∧ run acts w1 = Some (w', es')
              ∧ es = e :: es'.
Proof.
  simpl. destruct (step a w) as [[w1 e]|]; [|done].
  destruct (run acts w1) as [[w2 es']|] eqn:Hr; [|done].
  intros [= <- <-]. by exists w1, e, es'.
Qed.

Lemma run_app acts1 acts2 w w' es :
  run (acts1 ++ acts2) w = Some (w', es) ↔
  ∃ w1 es1 es2, run acts1 w = Some (w1, es1) ∧ run acts2 w1 = Some (w', es2)
                ∧ es = es1 ++ es2.
Proof.
  revert w es. induction acts1 as [|a acts1 IH]; intros w es; simpl.
  - split.
    + intros Hr. by exists w, (@nil event), es.
    + by intros (w1 & es1 & es2 & [= <- <-] & Hr & ->).
  - destruct (step a w) as [[w0 e]|]; [|split; [done | by intros (?&?&?&?&_)]].
    split.
    + destruct (run (acts1 ++ acts2) w0) as [[w2 es']|] eqn:Hr; [|done].
      intros [= <- <-]. apply IH in Hr as (w1 & es1 & es2 & Hr1 & Hr2 & ->).
      exists w1, (e :: es1), es2. by rewrite Hr1.
    + intros (w1 & es1 & es2 & Hr1 & Hr2 & ->).
      destruct (run acts1 w0) as [[w1' es1']|] eqn:Hr; [|done].
      injection Hr1 as <- <-.
      assert (run (acts1 ++ acts2) w0 = Some (w', es1' ++ es2)) as ->; [|done].
      apply IH. by exists w1', es1', es2.
Qed.

Lemma reachable_run acts w w' es :
  reachable w → run acts w = Some (w', es) → reachable w'.
Proof.
  intros (acts0 & es0 & Hr0) Hr. exists (acts0 ++ acts), (es0 ++ es).
  apply run_app. by exists w, es0, es.
Qed.

(** Induction over runs, for a property that every step passes on. *)
Lemma run_ind_inv (P : world → Prop) acts w w' es :
  (∀ a w w' e, P w → step a w = Some (w', e) → P w') →
  P w → run acts w = Some (w', es) → P w'.
Proof.
  intros Hstep. revert w es. induction acts as [|a acts IH]; intros w es Hw.
  - by intros [= <- _].
  - intros (w1 & e & es' & Hs & Hr & _)%run_cons. eauto.
Qed.

Lemma wf_new : wf NewChatServer.
Proof. by split. Qed.

Lemma step_wf a w w' e : wf w → step a w = Some (w', e) → wf w'.
Proof. intros Hwf Hs. by destruct (step_grows _ _ _ _ Hwf Hs). Qed.

Lemma reachable_wf w : reachable w → wf w.
Proof.
  intros (acts & es & Hr).
  eapply (run_ind_inv wf); [apply step_wf | apply wf_new | done].
Qed.

Lemma run_grows acts w w' es :
  wf w → run acts w = Some (w', es) →
  grows (mem w) (msgs (srv w)) (mem w') (msgs (srv w')).
Proof.
  revert w es. induction acts as [|a acts IH]; intros w es Hwf.
  - intros [= <- _]. by apply grows_refl.
  - intros (w1 & e & es' & Hs & Hr & _)%run_cons.
    eapply grows_trans; [by eapply step_grows |].
    eapply IH; [by eapply step_wf | done].
Qed.

Lemma detached_no_alias h s r : detached h s r → ¬ aliases s r.
Proof.
  unfold detached. intros Hd (a & Hs & Hr). rewrite Hr in Hd.
  by destruct Hd as [_ Hne].
Qed.

(** A snapshot keeps its contents through every run. *)
Lemma snapshot_stable acts w w' es r :
  wf w → snapshot_of w r → run acts w = Some (w', es) →
  snapshot_of w' r ∧ elems (mem w') r = elems (mem w) r.
Proof.
  intros Hwf Hsnap Hr.
  destruct (run_grows _ _ _ _ Hwf Hr) as (_ & _ & Hd).
  destruct (Hd r Hsnap) as [Hsnap' Hb]. split; [done |].
  unfold elems. by rewrite Hb.
Qed.

Lemma History_snapshot w w1 e :
  wf w → History w = (w1, e) →
  ∃ r, e = EvReturn (Some r) ∧ srv w1 = srv w
       ∧ history w1 = history w ∧ elems (mem w1) r = history w
       ∧ snapshot_of w1 r.
Proof.
  intros Hwf. unfold History.
  destruct (go_append _ _ _) as [h r] eqn:Hcopy. intros [= <- <-].
  destruct (go_append_copy _ _ _ _ _ Hwf Hcopy) as (_ & Hel & Hr & Hd & _).
  exists r. by split_and!.
Qed.

Lemma Send_snapshot args w w1 e :
  wf w → Send args w = (w1, e) →
  ∃ r, e = EvSilent
       ∧ sending w1 = sending w ++ [mkParked args (Some r)]
       ∧ history w1 = history w ++ [Sender args +:+ ": " +:+ Text args]
       ∧ elems (mem w1) r = history w1
       ∧ snapshot_of w1 r.
Proof.
  intros Hwf. unfold Send.
  destruct (go_append (mem w) _ _) as [h1 s] eqn:Happ.
  destruct (go_append h1 _ _) as [h2 r] eqn:Hcopy. intros [= <- <-].
  destruct (go_append_spec _ _ _ _ _ Hwf Happ) as (Hok1 & Hel1 & _).
  destruct (go_append_copy _ _ _ _ _ Hok1 Hcopy) as (_ & Hel & Hr & Hd & _).
  exists r. unfold history, snapshot_of. simpl.
  split_and!; [done | done | by rewrite Hel | by rewrite Hel, Hr | done].
Qed.

End Runs.

(** * The history log and its snapshots *)

Section History.
Context `{!GoRuntime}.

(** C1: the snapshot that [Send(sender, text)] hands back is not empty, ends
    in the entry "sender: text", and is the whole log with that entry
    appended; it still reads so when the call returns after its channel
    send, whatever ran in between. *)
Theorem Send_returns_full_history args w w1 e :
  reachable w → Send args w = (w1, e) →
  let entry := Sender args +:+ ": " +:+ Text args in
  ∃ r, sending w1 = sending w ++ [mkParked args (Some r)]
       ∧ elems (mem w1) r ≠ []
       ∧ last (elems (mem w1) r) = Some entry
       ∧ elems (mem w1) r = history w1
       ∧ history w1 = history w ++ [entry]
       ∧ ∀ acts w2 es i w3 ev,
           run acts w1 = Some (w2, es) →
           sending w2 !! i = Some (mkParked args (Some r)) →
           step (AChanSend i) w2 = Some (w3, ev) →
           ev = EvReturn (Some r) ∧ elems (mem w3) r = history w ++ [entry].
Proof.
  intros Hreach HSend entry. pose proof (reachable_wf _ Hreach) as Hwf.
  destruct (Send_snapshot _ _ _ _ Hwf HSend) as (r & _ & Hpark & Hhist & Hel & Hsnap).
  fold entry in Hhist. exists r. split_and!; try done.
  - rewrite Hel, Hhist. by destruct (history w).
  - by rewrite Hel, Hhist, last_snoc.
  - intros acts w2 es i w3 ev Hrun Hi Hstep.
    assert (wf w1) as Hwf1.
    { apply (step_wf (ASend args) w w1 e Hwf). simpl. by rewrite HSend. }
    destruct (snapshot_stable _ _ _ _ _ Hwf1 Hsnap Hrun) as [_ Hsame].
    destruct (engine_keeps_log _ _ _ _ Hstep I) as [Hmem _].
    simpl in Hstep. unfold chan_send in Hstep. rewrite Hi in Hstep.
    case_decide; [|done]. injection Hstep as _ <-.
    split; [done |]. by rewrite Hmem, Hsame, Hel.
Qed.

(** C5: along every interleaving of Register, Unregister, Send, History and
    the broadcaster's own actions the log only grows at its end: the old log
    is a prefix of the new one, so its length does not drop and every entry
    keeps its index; and of two History calls the earlier reply is a prefix
    of the later one. *)
Theorem history_log_append_only w :
  reachable w →
  (∀ acts w' es, run acts w = Some (w', es) →
     history w `prefix_of` history w'
     ∧ length (history w) ≤ length (history w')
     ∧ ∀ i x, history w !! i = Some x → history w' !! i = Some x)
  ∧ (∀ acts w' r1 es r2,
       run (AHistory :: acts ++ [AHistory]) w
         = Some (w', EvReturn (Some r1) :: es ++ [EvReturn (Some r2)]) →
       elems (mem w') r1 `prefix_of` elems (mem w') r2
       ∧ length (elems (mem w') r1) ≤ length (elems (mem w') r2)).
Proof.
  intros Hreach. pose proof (reachable_wf _ Hreach) as Hwf.
  assert (∀ acts v v' es, wf v → run acts v = Some (v', es) →
            history v `prefix_of` history v') as Hpre.
  { intros acts v v' es Hv Hrun. by destruct (run_grows _ _ _ _ Hv Hrun) as (_ & ? & _). }
  split.
  - intros acts w' es Hrun. pose proof (Hpre _ _ _ _ Hwf Hrun) as Hp.
    split_and!; [done | by apply prefix_length |].
    intros i x Hi. by eapply prefix_lookup_Some.
  - intros acts w' r1 es r2 Hrun.
    apply run_cons in Hrun as (w1 & e1 & es1 & Hs1 & Hrun & [= <- <-]).
    apply run_app in Hrun as (w2 & es2 & es3 & Hrun & Hlast & Hes).
    apply run_cons in Hlast as (w3 & e3 & es4 & Hs3 & [= <- <-] & ->).
    apply app_inj_tail in Hes as [<- <-].
    simpl in Hs1, Hs3. injection Hs1 as Hs1. injection Hs3 as Hs3.
    destruct (History_snapshot _ _ _ Hwf Hs1) as (r & [= <-] & _ & Hh1 & Hel1 & Hsnap1).
    assert (wf w1) as Hwf1.
    { apply (step_wf AHistory w w1 (EvReturn (Some r1)) Hwf). simpl.
      by rewrite Hs1. }
    assert (wf w2) as Hwf2 by (eapply (run_ind_inv wf); [apply step_wf | exact Hwf1 | done]).
    destruct (History_snapshot _ _ _ Hwf2 Hs3) as (r' & [= <-] & _ & _ & Hel2 & _).
    assert (run (acts ++ [AHistory]) w1
            = Some (w3, es ++ [EvReturn (Some r2)])) as Hall.
    { apply run_app. exists w2, es, [EvReturn (Some r2)]. split_and!; try done.
      simpl. by rewrite Hs3. }
    destruct (snapshot_stable _ _ _ _ _ Hwf1 Hsnap1 Hall) as [_ Hsame].
    assert (elems (mem w3) r1 `prefix_of` elems (mem w3) r2) as Hp.
    { rewrite Hsame, Hel1, Hel2, <- Hh1. by eapply Hpre. }
    split; [done | by apply prefix_length].
Qed.

(** C6: the slice that History or Send gives to its caller shares no
    backing array with the live log, holds the log as it was at that
    moment, and reads the same after every later run of actions. *)
Theorem snapshots_are_independent_copies a w w1 e r :
  reachable w → step a w = Some (w1, e) → snapshot_made a w1 e = Some r →
  ¬ aliases (msgs (srv w1)) r
  ∧ elems (mem w1) r = history w1
  ∧ ∀ acts w2 es, run acts w1 = Some (w2, es) →
      ¬ aliases (msgs (srv w2)) r ∧ elems (mem w2) r = elems (mem w1) r.
Proof.
  intros Hreach Hstep Hmade. pose proof (reachable_wf _ Hreach) as Hwf.
  pose proof (step_wf _ _ _ _ Hwf Hstep) as Hwf1.
  assert (snapshot_of w1 r ∧ elems (mem w1) r = history w1) as [Hsnap Hel].
  { destruct a; try done; simpl in Hstep; injection Hstep as Hstep.
    - destruct (Send_snapshot _ _ _ _ Hwf Hstep) as (r' & _ & Hpark & _ & Hel & Hsnap).
      simpl in Hmade. rewrite Hpark, last_snoc in Hmade.
      by injection Hmade as <-.
    - destruct (History_snapshot _ _ _ Hwf Hstep) as (r' & -> & _ & Hh & Hel & Hsnap).
      simpl in Hmade. injection Hmade as <-. by rewrite Hh. }
  split_and!; [by eapply detached_no_alias | done |].
  intros acts w2 es Hrun.
  destruct (snapshot_stable _ _ _ _ _ Hwf1 Hsnap Hrun) as [Hsnap2 Hsame].
  split; [by eapply detached_no_alias | done].
Qed.

End History.

(** * The broadcaster *)

Section Broadcaster.
Context `{!GoRuntime}.

Lemma elem_of_spawn n msg snap t :
  t ∈ spawn n msg snap ↔
  t_seq t = n ∧ t_msg t = msg ∧ snap !! t_id t = Some (t_cli t)
  ∧ t_id t ≠ Sender msg.
Proof.
  unfold spawn. rewrite list_elem_of_fmap. split.
  - intros ([id cli] & -> & Hin).
    apply list_elem_of_filter in Hin as [Hne Hin].
    by apply elem_of_map_to_list in Hin.
  - intros (<- & <- & Hsnap & Hne). exists (t_id t, t_cli t).
    split; [by destruct t |].
    apply list_elem_of_filter. split; [done | by apply elem_of_map_to_list].
Qed.

Lemma NoDup_spawn_ids n msg snap : NoDup (t_id <$> spawn n msg snap).
Proof.
  unfold spawn. rewrite <- list_fmap_compose.
  eapply sublist_NoDup; [apply (NoDup_fst_map_to_list snap) |].
  apply fmap_sublist, sublist_filter.
Qed.

Lemma NoDup_spawn n msg snap : NoDup (spawn n msg snap).
Proof. eapply NoDup_fmap_1, NoDup_spawn_ids. Qed.

(** What each action does to the goroutines in flight. *)
Lemma step_tasks a w w' e :
  step a w = Some (w', e) →
  match a with
  | AFanout =>
      ∃ msg, received w = Some msg ∧ dequeued w' = S (dequeued w)
             ∧ tasks w' = tasks w ++ spawn (dequeued w) msg (clients (srv w))
             ∧ e = EvSilent
  | ADeliver i ok =>
      ∃ t, tasks w !! i = Some t ∧ e = EvCall t ok
           ∧ dequeued w' = dequeued w ∧ tasks w' = delete i (tasks w)
  | _ =>
      dequeued w' = dequeued w ∧ tasks w' = tasks w ∧ ∀ t ok, e ≠ EvCall t ok
  end.
Proof.
  destruct a; simpl; unfold Register, Unregister, Send, History, chan_send,
    chan_recv, fanout, deliver.
  - destruct dial_ok; [destruct (go_append _ _ _) |]; by intros [= <- <-].
  - destruct (clients (srv w) !! ID args);
      destruct (go_append _ _ _); by intros [= <- <-].
  - destruct (go_append (mem w) _ _) as [h1 s].
    destruct (go_append h1 _ _). by intros [= <- <-].
  - destruct (go_append _ _ _). by intros [= <- <-].
  - destruct (sending w !! i); [|done]. case_decide; [|done].
    by intros [= <- <-].
  - destruct (received w), (broadcast (srv w)); try done.
    by intros [= <- <-].
  - destruct (received w) as [msg|]; [|done]. intros [= <- <-].
    by exists msg.
  - destruct (tasks w !! i) as [t|]; [|done].
    destruct ok; intros [= <- <-]; by exists t.
Qed.

Lemma not_elem_of_delete_NoDup (l : list task) i t :
  NoDup l → l !! i = Some t → t ∉ delete i l.
Proof.
  intros Hnd Hi. rewrite delete_take_drop.
  rewrite <- (take_drop_middle l i t Hi) in Hnd.
  apply NoDup_app in Hnd as (_ & Hl & Hr%NoDup_cons).
  rewrite elem_of_app. intros [Hin | Hin].
  - apply (Hl t Hin). by left.
  - by destruct Hr.
Qed.

Lemma tasks_ok_new : tasks_ok NewChatServer.
Proof. split; [by apply Forall_nil | apply NoDup_nil_2]. Qed.

Lemma step_tasks_ok a w w' e :
  tasks_ok w → step a w = Some (w', e) → tasks_ok w'.
Proof.
  intros [Hall Hnd] Hstep. apply step_tasks in Hstep.
  unfold tasks_ok, task_ok in *. destruct a;
    try (destruct Hstep as (-> & -> & _); by split).
  - destruct Hstep as (msg & _ & -> & -> & _). split.
    + apply Forall_app. split.
      * eapply Forall_impl; [done |]. intros t [? ?]. split; [lia | done].
      * apply Forall_forall. intros t (-> & -> & _ & Hne)%elem_of_spawn.
        split; [lia | done].
    + apply NoDup_app. split_and!; [done | | apply NoDup_spawn].
      intros t Hin (Hseq & _)%elem_of_spawn.
      rewrite Forall_forall in Hall. destruct (Hall t Hin). lia.
  - destruct Hstep as (t & Hi & _ & -> & ->). split.
    + by apply Forall_delete.
    + eapply sublist_NoDup; [done | apply sublist_delete].
Qed.

Lemma reachable_tasks_ok w : reachable w → tasks_ok w.
Proof.
  intros (acts & es & Hr).
  eapply (run_ind_inv tasks_ok); [apply step_tasks_ok | apply tasks_ok_new | done].
Qed.

(** Every [cli.Call] seen along a run belongs to a goroutine that was in
    flight at the start or was started by a later dequeue. *)
Lemma run_calls (Q : task → Prop) acts w w' es :
  (∀ t, t ∈ tasks w → Q t) →
  (∀ n msg snap t, dequeued w ≤ n → t ∈ spawn n msg snap → Q t) →
  run acts w = Some (w', es) →
  ∀ t ok, EvCall t ok ∈ es → Q t.
Proof.
  revert w es. induction acts as [|a acts IH]; intros w es Hold Hnew.
  - intros [= _ <-] t ok Hin. by apply elem_of_nil in Hin.
  - intros (w1 & e & es' & Hstep & Hrun & ->)%run_cons t ok.
    apply step_tasks in Hstep. intros [<- | Hin]%elem_of_cons.
    + destruct a;
        try (destruct Hstep as (_ & _ & Hno); exfalso; by eapply Hno).
      * by destruct Hstep as (msg & _ & _ & _ & ?).
      * destruct Hstep as (t' & Hi & [= <- <-] & _). apply Hold.
        apply list_elem_of_lookup. by exists i.
    + eapply (IH w1); [| | done | done].
      * intros t1 Ht1. destruct a;
          try (destruct Hstep as (_ & Htk & _); rewrite Htk in Ht1; by apply Hold).
        -- destruct Hstep as (msg & _ & _ & Htk & _). rewrite Htk in Ht1.
           apply elem_of_app in Ht1 as [? | ?]; [by apply Hold |].
           by eapply Hnew.
        -- destruct Hstep as (t' & _ & _ & _ & Htk). rewrite Htk in Ht1.
           by eapply Hold, list_elem_of_delete_inv.
      * intros n msg snap t1 Hn. apply Hnew.
        destruct a;
          try (destruct Hstep as (Hd & _); rewrite Hd in Hn; done).
        -- destruct Hstep as (? & _ & Hd & _). lia.
        -- destruct Hstep as (? & _ & _ & Hd & _). lia.
Qed.

(** Only a failed dial makes an RPC return an error. *)
Lemma step_error a w w' id addr :
  step a w = Some (w', EvError id addr) →
  a = ARegister (mkRegisterArgs id addr) false.
Proof.
  destruct a; simpl; unfold Register, Unregister, Send, History, chan_send,
    chan_recv, fanout, deliver.
  - destruct dial_ok; [by destruct (go_append _ _ _) |].
    destruct args. by intros [= _ <- <-].
  - by destruct (clients (srv w) !! ID args); destruct (go_append _ _ _).
  - destruct (go_append (mem w) _ _) as [h1 s]. by destruct (go_append h1 _ _).
  - by destruct (go_append _ _ _).
  - destruct (sending w !! i); [|done]. by case_decide.
  - by destruct (received w), (broadcast (srv w)).
  - by destruct (received w).
  - destruct (tasks w !! i); [|done]. by destruct ok.
Qed.

Lemma run_errors acts w w' es id addr :
  run acts w = Some (w', es) → EvError id addr ∈ es →
  ARegister (mkRegisterArgs id addr) false ∈ acts.
Proof.
  revert w es. induction acts as [|a acts IH]; intros w es.
  - intros [= _ <-] Hin. by apply elem_of_nil in Hin.
  - intros (w1 & e & es' & Hstep & Hrun & ->)%run_cons.
    intros [<- | Hin]%elem_of_cons.
    + apply step_error in Hstep as ->. by left.
    + right. by eapply IH.
Qed.

(** What [Register] and [Send] leave at the channel send. *)
Lemma Register_parks args w :
  sending (Register args true w).1
  = sending w
    ++ [mkParked (mkMessageArgs (ID args) ("User " +:+ ID args +:+ " joined"))
                 None].
Proof. unfold Register. by destruct (go_append _ _ _). Qed.

Lemma Send_parks args w :
  ∃ r, sending (Send args w).1 = sending w ++ [mkParked args r].
Proof.
  unfold Send. destruct (go_append (mem w) _ _) as [h1 s].
  destruct (go_append h1 _ _) as [h2 r]. by exists (Some r).
Qed.

(** C2: no delivery goroutine is ever started for, and no [cli.Call] is ever
    made to, the identifier that sent the message: the fan-out skips it.
    Register puts its join notice on the channel with the joining identifier
    as sender and Send passes its arguments on unchanged, so neither a join
    notice nor a message comes back to its origin. *)
Theorem no_delivery_to_sender w :
  reachable w →
  (∀ t, t ∈ tasks w → t_id t ≠ Sender (t_msg t))
  ∧ (∀ msg w1 e t, received w = Some msg → step AFanout w = Some (w1, e) →
       t ∈ tasks w1 → t ∉ tasks w → t_msg t = msg ∧ t_id t ≠ Sender msg)
  ∧ (∀ acts w' es t ok, run acts w = Some (w', es) → EvCall t ok ∈ es →
       t_id t ≠ Sender (t_msg t))
  ∧ (∀ args, Sender <$> (p_msg <$> last (sending (Register args true w).1))
             = Some (ID args))
  ∧ (∀ args, p_msg <$> last (sending (Send args w).1) = Some args).
Proof.
  intros Hreach. destruct (reachable_tasks_ok _ Hreach) as [Hall _].
  rewrite Forall_forall in Hall. split_and!.
  - intros t Ht. by destruct (Hall t Ht).
  - intros msg w1 e t Hrecv Hstep Hin Hnot.
    apply step_tasks in Hstep as (msg' & Hrecv' & _ & Htk & _).
    rewrite Hrecv in Hrecv'. injection Hrecv' as <-.
    rewrite Htk, elem_of_app in Hin. destruct Hin as [? | Hin]; [done |].
    by apply elem_of_spawn in Hin as (_ & ? & _ & ?).
  - intros acts w' es t ok Hrun Hin.
    eapply (run_calls (λ t, t_id t ≠ Sender (t_msg t))); [| | done | done].
    + intros t' Ht'. by destruct (Hall t' Ht').
    + by intros n msg snap t' _ (_ & -> & _ & ?)%elem_of_spawn.
  - intros args. by rewrite Register_parks, last_snoc.
  - intros args. destruct (Send_parks args w) as [r ->]. by rewrite last_snoc.
Qed.

(** C4: when [cli.Call] fails the goroutine closes that endpoint and deletes
    the recipient's identifier from the registry.  The goroutine is gone and
    the call is never made again; the log, the channel and the replies of the
    parked RPCs are untouched, and the only error an RPC ever returns is the
    dial error of a Register. *)
Theorem failed_delivery_evicts w i t w1 e :
  reachable w → tasks w !! i = Some t →
  step (ADeliver i false) w = Some (w1, e) →
  e = EvCall t false
  ∧ clients (srv w1) = delete (t_id t) (clients (srv w))
  ∧ clients (srv w1) !! t_id t = None
  ∧ closed w1 = closed w ++ [t_cli t]
  ∧ tasks w1 = delete i (tasks w) ∧ (t ∉ tasks w1)
  ∧ msgs (srv w1) = msgs (srv w) ∧ mem w1 = mem w
  ∧ broadcast (srv w1) = broadcast (srv w) ∧ sending w1 = sending w
  ∧ (∀ acts w2 es ok, run acts w1 = Some (w2, es) → EvCall t ok ∉ es)
  ∧ (∀ acts w2 es id addr, run acts w1 = Some (w2, es) →
       EvError id addr ∈ es →
       ARegister (mkRegisterArgs id addr) false ∈ acts).
Proof.
  intros Hreach Hi Hstep. destruct (reachable_tasks_ok _ Hreach) as [Hall Hnd].
  pose proof (not_elem_of_delete_NoDup _ _ _ Hnd Hi) as Hgone.
  assert (t_seq t < dequeued w) as Hseq.
  { rewrite Forall_forall in Hall. apply Hall, list_elem_of_lookup. by exists i. }
  simpl in Hstep. unfold deliver in Hstep. rewrite Hi in Hstep.
  injection Hstep as <- <-. simpl.
  split_and!; try done.
  - apply lookup_delete_eq.
  - intros acts w2 es ok Hrun Hin.
    eapply (run_calls (λ t', t' ≠ t)); [| | done | done | done].
    + simpl. intros t' Ht' ->. done.
    + simpl. intros n msg snap t' Hn (Hs & _)%elem_of_spawn ->. lia.
  - intros acts w2 es id addr Hrun. by eapply run_errors.
Qed.

(** C8: for one dequeued message the goroutines started are, one per
    identifier, exactly the entries of the registry copy taken under the
    lock less the sender's; every later [cli.Call] for that dequeue goes to
    one of them, so an identifier registered after the copy gets none. *)
Theorem fanout_recipients_are_snapshot w msg w1 e :
  reachable w → received w = Some msg → step AFanout w = Some (w1, e) →
  let n := dequeued w in
  let snap := clients (srv w) in
  ∃ new, tasks w1 = tasks w ++ new
    ∧ NoDup (t_id <$> new)
    ∧ (∀ t, t ∈ new ↔ t_seq t = n ∧ t_msg t = msg
                       ∧ snap !! t_id t = Some (t_cli t)
                       ∧ t_id t ≠ Sender msg)
    ∧ (∀ id, id ∈ (t_id <$> new) ↔ id ∈ dom snap ∖ {[Sender msg]})
    ∧ ∀ acts w2 es t ok, run acts w1 = Some (w2, es) → EvCall t ok ∈ es →
        t_seq t = n →
        t ∈ new ∧ snap !! t_id t = Some (t_cli t) ∧ t_id t ≠ Sender msg
        ∧ ∀ id, snap !! id = None → t_id t ≠ id.
Proof.
  intros Hreach Hrecv Hstep n snap.
  destruct (reachable_tasks_ok _ Hreach) as [Hall _].
  rewrite Forall_forall in Hall.
  apply step_tasks in Hstep as (msg' & Hrecv' & Hdq & Htk & _).
  rewrite Hrecv in Hrecv'. injection Hrecv' as <-.
  exists (spawn n msg snap). split_and!.
  - done.
  - apply NoDup_spawn_ids.
  - intros t. apply elem_of_spawn.
  - intros id. rewrite list_elem_of_fmap, elem_of_difference, elem_of_dom,
      elem_of_singleton. split.
    + intros (t & -> & (_ & _ & Hsnap & Hne)%elem_of_spawn). eauto.
    + intros [[cli Hsnap] Hne]. exists (mkTask n id cli msg).
      split; [done |]. by apply elem_of_spawn.
  - intros acts w2 es t ok Hrun Hin Hseq.
    assert (t ∈ spawn n msg snap) as Hnew.
    { eapply (run_calls (λ t, t_seq t = n → t ∈ spawn n msg snap));
        [| | done | done | done].
      - intros t' Ht' Hs. rewrite Htk, elem_of_app in Ht'.
        destruct Ht' as [Ht' | ?]; [|done].
        destruct (Hall t' Ht'). unfold n in Hs. lia.
      - intros n' msg' snap' t' Hn' (Hs & _)%elem_of_spawn Hs'.
        rewrite Hdq in Hn'. unfold n in Hs'. lia. }
    pose proof Hnew as (_ & _ & Hsnap & Hne)%elem_of_spawn.
    split_and!; try done. intros id Hnone Heq. rewrite Heq in Hsnap. congruence.
Qed.

End Broadcaster.

(** * The facade and the channel *)

Section Facade.
Context `{!GoRuntime}.

(** What each action does to the channel and to the goroutines parked at
    it. *)
Lemma step_channel a w w' e :
  step a w = Some (w', e) →
  match a with
  | AChanSend i =>
      ∃ p, sending w !! i = Some p
           ∧ length (broadcast (srv w)) < broadcast_cap
           ∧ broadcast (srv w') = broadcast (srv w) ++ [p_msg p]
           ∧ sending w' = delete i (sending w)
           ∧ e = EvReturn (p_reply p)
  | AChanRecv =>
      ∃ m, received w = None
           ∧ broadcast (srv w) = m :: broadcast (srv w')
           ∧ received w' = Some m ∧ sending w' = sending w
  | ARegister _ true | AUnregister _ | ASend _ =>
      broadcast (srv w') = broadcast (srv w)
      ∧ ∃ p, sending w' = sending w ++ [p]
  | _ =>
      broadcast (srv w') = broadcast (srv w) ∧ sending w' = sending w
  end.
Proof.
  destruct a; simpl; unfold Register, Unregister, Send, History, chan_send,
    chan_recv, fanout, deliver.
  - destruct dial_ok; [destruct (go_append _ _ _) |]; intros [= <- <-];
      simpl; eauto.
  - destruct (clients (srv w) !! ID args);
      destruct (go_append _ _ _); intros [= <- <-]; simpl; eauto.
  - destruct (go_append (mem w) _ _) as [h1 s].
    destruct (go_append h1 _ _). intros [= <- <-]. simpl. eauto.
  - destruct (go_append _ _ _). by intros [= <- <-].
  - destruct (sending w !! i) as [p|]; [|done]. case_decide; [|done].
    intros [= <- <-]. by exists p.
  - destruct (received w) as [m0|], (broadcast (srv w)) as [|m q]; try done.
    intros [= <- <-]. by exists m.
  - destruct (received w); [|done]. by intros [= <- <-].
  - destruct (tasks w !! i); [|done]. destruct ok; by intros [= <- <-].
Qed.

Lemma step_bounded a w w' e :
  length (broadcast (srv w)) ≤ broadcast_cap → step a w = Some (w', e) →
  length (broadcast (srv w')) ≤ broadcast_cap.
Proof.
  intros Hle Hstep. apply step_channel in Hstep. destruct a.
  - destruct dial_ok; destruct Hstep as [-> _]; done.
  - by destruct Hstep as [-> _].
  - by destruct Hstep as [-> _].
  - by destruct Hstep as [-> _].
  - destruct Hstep as (p & _ & Hlt & -> & _). rewrite length_app. simpl. lia.
  - destruct Hstep as (m & _ & Hq & _). rewrite Hq in Hle. simpl in Hle. lia.
  - by destruct Hstep as [-> _].
  - by destruct Hstep as [-> _].
Qed.

Lemma reachable_bounded w :
  reachable w → length (broadcast (srv w)) ≤ broadcast_cap.
Proof.
  intros (acts & es & Hr).
  apply (run_ind_inv (λ w, length (broadcast (srv w)) ≤ broadcast_cap)
                     acts NewChatServer w es); [apply step_bounded | | done].
  simpl. unfold broadcast_cap. lia.
Qed.

(** While nothing is received, a full channel stays as it is and every
    parked goroutine stays parked. *)
Lemma full_channel_blocks acts w w' es :
  length (broadcast (srv w)) = broadcast_cap →
  run acts w = Some (w', es) → AChanRecv ∉ acts →
  (∀ i, AChanSend i ∉ acts)
  ∧ broadcast (srv w') = broadcast (srv w)
  ∧ sending w `prefix_of` sending w'.
Proof.
  revert w es. induction acts as [|a acts IH]; intros w es Hfull.
  - intros [= <- _] _. split_and!; [intros i Hin; by apply elem_of_nil in Hin | done | done].
  - intros (w1 & e & es' & Hstep & Hrun & _)%run_cons Hno.
    apply not_elem_of_cons in Hno as [Hne Hno].
    apply step_channel in Hstep.
    assert (broadcast (srv w1) = broadcast (srv w)
            ∧ sending w `prefix_of` sending w1
            ∧ ∀ i, a ≠ AChanSend i) as (Hq & Hp & Ha).
    { destruct a; try done.
      - destruct dial_ok; [destruct Hstep as [-> [p ->]] | destruct Hstep as [-> ->]];
          split_and!; try done. by apply prefix_app_r.
      - destruct Hstep as [-> [p ->]]. split_and!; try done. by apply prefix_app_r.
      - destruct Hstep as [-> [p ->]]. split_and!; try done. by apply prefix_app_r.
      - destruct Hstep as [-> ->]. by split_and!.
      - destruct Hstep as (p & _ & Hlt & _). lia.
      - destruct Hstep as [-> ->]. by split_and!.
      - destruct Hstep as [-> ->]. by split_and!. }
    rewrite <- Hq in Hfull.
    destruct (IH w1 es' Hfull Hrun Hno) as (Hsend & Hq' & Hp').
    split_and!.
    + intros i [? | ?]%elem_of_cons; [by eapply Ha | by eapply Hsend].
    + congruence.
    + by etrans.
Qed.

(** C3: a Register whose dial fails returns the error in the same action and
    leaves the whole state as it was: registry, log, channel and the
    goroutines parked at the channel. *)
Theorem Register_dial_failure_mutates_nothing args w :
  ∃ w1, step (ARegister args false) w
        = Some (w1, EvError (ID args) (Addr args))
        ∧ w1 = w
        ∧ clients (srv w1) = clients (srv w)
        ∧ history w1 = history w
        ∧ msgs (srv w1) = msgs (srv w) ∧ mem w1 = mem w
        ∧ broadcast (srv w1) = broadcast (srv w)
        ∧ sending w1 = sending w.
Proof. exists w. by split_and!. Qed.

(** C9: the channel buffer holds at most 100 messages.  When it is full no
    channel send can happen, so the RPCs parked at it do not return, and as
    long as the broadcaster receives nothing the buffer and the parked
    goroutines stay; when there is room a parked goroutine puts its message
    at the end of the buffer and returns nil.  No action removes a message
    except the broadcaster's receive, which takes the oldest, and no action
    discards a parked goroutine. *)
Theorem broadcast_queue_backpressure w :
  reachable w →
  broadcast_cap = 100
  ∧ length (broadcast (srv w)) ≤ broadcast_cap
  ∧ (length (broadcast (srv w)) = broadcast_cap →
       (∀ i, step (AChanSend i) w = None)
       ∧ ∀ acts w' es, run acts w = Some (w', es) → AChanRecv ∉ acts →
           (∀ i, AChanSend i ∉ acts)
           ∧ broadcast (srv w') = broadcast (srv w)
           ∧ sending w `prefix_of` sending w')
  ∧ (∀ i p, sending w !! i = Some p →
       length (broadcast (srv w)) < broadcast_cap →
       ∃ w', step (AChanSend i) w = Some (w', EvReturn (p_reply p))
             ∧ broadcast (srv w') = broadcast (srv w) ++ [p_msg p]
             ∧ sending w' = delete i (sending w))
  ∧ (∀ a w' e, step a w = Some (w', e) →
       match a with
       | AChanSend i =>
           ∃ p, sending w !! i = Some p
                ∧ broadcast (srv w') = broadcast (srv w) ++ [p_msg p]
                ∧ sending w' = delete i (sending w)
                ∧ e = EvReturn (p_reply p)
       | AChanRecv =>
           ∃ m, broadcast (srv w) = m :: broadcast (srv w')
                ∧ received w' = Some m ∧ sending w' = sending w
       | ARegister _ true | AUnregister _ | ASend _ =>
           broadcast (srv w') = broadcast (srv w)
           ∧ ∃ p, sending w' = sending w ++ [p]
       | _ =>
           broadcast (srv w') = broadcast (srv w) ∧ sending w' = sending w
       end).
Proof.
  intros Hreach. split_and!.
  - done.
  - by apply reachable_bounded.
  - intros Hfull. split.
    + intros i. simpl. unfold chan_send. destruct (sending w !! i); [|done].
      case_decide; [lia | done].
    + intros acts w' es. by apply full_channel_blocks.
  - intros i p Hi Hlt. simpl. unfold chan_send. rewrite Hi.
    case_decide; [|done]. eauto.
  - intros a w' e Hstep. apply step_channel in Hstep.
    destruct a; try done.
    + destruct Hstep as (p & ? & _ & ? & ? & ?). by exists p.
    + destruct Hstep as (m & _ & ? & ? & ?). by exists m.
Qed.

(** C10: Unregister never returns an error.  For an identifier that is not
    in the registry it leaves registry and connections alone; in every case
    it appends "User id left" to the log and goes on to send that text on
    the channel with the identifier as sender, returning nil once the send
    is through. *)
Theorem Unregister_always_announces args w w1 e :
  reachable w → Unregister args w = (w1, e) →
  let leaveMsg := "User " +:+ ID args +:+ " left" in
  let m := mkMessageArgs (ID args) leaveMsg in
  e = EvSilent
  ∧ history w1 = history w ++ [leaveMsg]
  ∧ sending w1 = sending w ++ [mkParked m None]
  ∧ (clients (srv w) !! ID args = None →
       clients (srv w1) = clients (srv w) ∧ closed w1 = closed w)
  ∧ (∀ cli, clients (srv w) !! ID args = Some cli →
       clients (srv w1) = delete (ID args) (clients (srv w))
       ∧ closed w1 = closed w ++ [cli])
  ∧ (length (broadcast (srv w1)) < broadcast_cap →
       ∃ w2, step (AChanSend (length (sending w))) w1
             = Some (w2, EvReturn None)
             ∧ broadcast (srv w2) = broadcast (srv w1) ++ [m])
  ∧ ∀ acts w2 es i w3 ev, run acts w1 = Some (w2, es) →
      sending w2 !! i = Some (mkParked m None) →
      step (AChanSend i) w2 = Some (w3, ev) →
      ev = EvReturn None ∧ broadcast (srv w3) = broadcast (srv w2) ++ [m].
Proof.
  intros Hreach HUn leaveMsg m. pose proof (reachable_wf _ Hreach) as Hwf.
  assert (∀ v i v' ev, sending v !! i = Some (mkParked m None) →
            step (AChanSend i) v = Some (v', ev) →
            ev = EvReturn None ∧ broadcast (srv v') = broadcast (srv v) ++ [m])
    as Hsend.
  { intros v i v' ev Hi Hstep. apply step_channel in Hstep
      as (p & Hp & _ & ? & _ & ?). rewrite Hi in Hp. by injection Hp as <-. }
  unfold Unregister in HUn. fold leaveMsg in HUn.
  destruct (go_append (mem w) (msgs (srv w)) [leaveMsg]) as [h s] eqn:Happ.
  destruct (go_append_spec _ _ _ _ _ Hwf Happ) as (_ & Hel & _).
  assert (sending w1 = sending w ++ [mkParked m None]) as Hpark
    by (destruct (clients (srv w) !! ID args); by injection HUn as <- _).
  split_and!.
  - by destruct (clients (srv w) !! ID args); injection HUn as _ <-.
  - by destruct (clients (srv w) !! ID args); injection HUn as <- _.
  - done.
  - intros Hnone. rewrite Hnone in HUn. by injection HUn as <- _.
  - intros cli Hsome. rewrite Hsome in HUn. by injection HUn as <- _.
  - intros Hroom. simpl. unfold chan_send.
    rewrite Hpark, lookup_app_r, Nat.sub_diag by done. simpl.
    case_decide; [|done]. eauto.
  - intros acts w2 es i w3 ev _. apply Hsend.
Qed.

End Facade.

(** C7, where the code departs from it: Register stores the new connection
    over the old one without closing the old one.  After Alice registers
    twice, her first connection is held by no registry entry and was never
    closed.  (Unregister and the delivery goroutine do call [Close].) *)
Theorem reregister_drops_endpoint_unclosed :
  run (H:=doubling) rejoin NewChatServer
    = Some (after rejoin, [EvSilent; EvSilent])
  ∧ held (after [ARegister alice_in true]) 0
  ∧ clients (srv (after rejoin)) !! "Alice" = Some 1
  ∧ ¬ held (after rejoin) 0
  ∧ 0 ∉ closed (after rejoin).
Proof.
  split_and!.
  - vm_compute. reflexivity.
  - exists "Alice". vm_compute. reflexivity.
  - vm_compute. reflexivity.
  - intros [id Hid].
    assert (clients (srv (after rejoin)) = {["Alice" := 1]}) as Hmap
      by (vm_compute; reflexivity).
    rewrite Hmap in Hid. by apply lookup_singleton_Some in Hid as [_ ?].
  - assert (closed (after rejoin) = []) as -> by (vm_compute; reflexivity).
    apply not_elem_of_nil.
Qed.

(** The same omission on the broadcaster's side: the goroutine closes the
    connection it called (1) and deletes Bob's entry, which by then holds the
    newer connection (2); that one is held by no entry and is not closed. *)
Example eviction_after_rejoin_drops_newer_unclosed :
  clients (srv (after (first_fanned ++ [ARegister bob_again true]))) !! "Bob"
  = Some 2
  ∧ clients (srv (after rejoin_then_evict)) = {["Alice" := 0]}
  ∧ closed (after rejoin_then_evict) = [1].
Proof. split_and!; vm_compute; reflexivity. Qed.

(** * The theorems at work on a small run *)

(** A run that does not block ends in a reachable state. *)
Lemma after_reachable acts :
  run (H:=doubling) acts NewChatServer ≠ None →
  reachable (H:=doubling) (after acts).
Proof.
  unfold after. destruct (run acts NewChatServer) as [[w es]|] eqn:Hrun.
  - intros _. by exists acts, es.
  - done.
Defined.

Lemma two_joined_reachable : reachable (H:=doubling) (after two_joined).
Proof. apply after_reachable. vm_compute. discriminate. Defined.

Lemma Send_returns_full_history_witness :
  ∃ r, last (elems (mem (after (two_joined ++ [ASend hi]))) r)
       = Some "Alice: hi"
       ∧ elems (mem (after (two_joined ++ [ASend hi]))) r
         = ["User Alice joined"; "User Bob joined"; "Alice: hi"].
Proof.
  destruct (Send_returns_full_history (H:=doubling) hi (after two_joined)
              (after (two_joined ++ [ASend hi])) EvSilent)
    as (r & _ & _ & Hlast & Hel & Hh & _).
  - exact two_joined_reachable.
  - vm_compute. reflexivity.
  - exists r. split; [exact Hlast |]. rewrite Hel, Hh. vm_compute. reflexivity.
Defined.

Lemma history_log_append_only_witness :
  history (after two_joined)
    `prefix_of` history (after (two_joined ++ [ASend hi; AUnregister bob_in])).
Proof.
  destruct (history_log_append_only (H:=doubling) (after two_joined))
    as [Hrun _]; [exact two_joined_reachable |].
  destruct (Hrun [ASend hi; AUnregister bob_in]
                 (after (two_joined ++ [ASend hi; AUnregister bob_in]))
                 [EvSilent; EvSilent]) as [Hp _]; [vm_compute; reflexivity | exact Hp].
Defined.

Lemma snapshots_are_independent_copies_witness :
  elems (mem (after (two_joined ++ [AHistory; ASend hi; AUnregister bob_in])))
        (mkSlice (Some 2) 2 2)
  = ["User Alice joined"; "User Bob joined"].
Proof.
  destruct (snapshots_are_independent_copies (H:=doubling) AHistory
              (after two_joined) (after (two_joined ++ [AHistory]))
              (EvReturn (Some (mkSlice (Some 2) 2 2))) (mkSlice (Some 2) 2 2))
    as (_ & Hel & Hlater).
  - exact two_joined_reachable.
  - vm_compute. reflexivity.
  - vm_compute. reflexivity.
  - destruct (Hlater [ASend hi; AUnregister bob_in]
                (after (two_joined ++ [AHistory; ASend hi; AUnregister bob_in]))
                [EvSilent; EvSilent]) as [_ Hsame]; [vm_compute; reflexivity |].
    rewrite Hsame, Hel. vm_compute. reflexivity.
Defined.

Lemma no_delivery_to_sender_witness :
  to_bob ∈ tasks (after first_fanned) ∧ t_id to_bob ≠ Sender (t_msg to_bob).
Proof.
  assert (to_bob ∈ tasks (after first_fanned)) as Hin
    by (vm_compute; apply list_elem_of_here).
  split; [exact Hin |].
  refine (proj1 (no_delivery_to_sender (H:=doubling) (after first_fanned) _)
                to_bob Hin).
  apply after_reachable. vm_compute. discriminate.
Defined.

Lemma failed_delivery_evicts_witness :
  clients (srv (after (first_fanned ++ [ADeliver 0 false]))) !! "Bob" = None
  ∧ closed (after (first_fanned ++ [ADeliver 0 false])) = [1].
Proof.
  destruct (failed_delivery_evicts (H:=doubling) (after first_fanned) 0 to_bob
              (after (first_fanned ++ [ADeliver 0 false]))
              (EvCall to_bob false))
    as (_ & _ & Hgone & Hclosed & _).
  - apply after_reachable. vm_compute. discriminate.
  - vm_compute. reflexivity.
  - vm_compute. reflexivity.
  - split; [exact Hgone | rewrite Hclosed; vm_compute; reflexivity].
Defined.

Lemma fanout_recipients_are_snapshot_witness :
  tasks (after first_fanned) = tasks (after first_received) ++ [to_bob]
  ∧ "Bob" ∈ dom (clients (srv (after first_received)))
            ∖ {[Sender alice_joined]}.
Proof.
  destruct (fanout_recipients_are_snapshot (H:=doubling) (after first_received)
              alice_joined (after first_fanned) EvSilent)
    as (new & Htk & _ & _ & Hids & _).
  - apply after_reachable. vm_compute. discriminate.
  - vm_compute. reflexivity.
  - vm_compute. reflexivity.
  - assert (new = [to_bob]) as -> by (vm_compute in Htk; symmetry; exact Htk).
    split; [exact Htk |]. apply Hids. vm_compute. apply list_elem_of_here.
Defined.

Lemma broadcast_queue_backpressure_witness :
  length (broadcast (srv (after two_joined))) ≤ 100.
Proof.
  destruct (broadcast_queue_backpressure (H:=doubling) (after two_joined))
    as (_ & Hle & _); [exact two_joined_reachable | exact Hle].
Defined.

Lemma Unregister_always_announces_witness :
  clients (srv (after (two_joined ++ [AUnregister carol_out])))
  = clients (srv (after two_joined))
  ∧ history (after (two_joined ++ [AUnregister carol_out]))
    = ["User Alice joined"; "User Bob joined"; "User Carol left"].
Proof.
  destruct (Unregister_always_announces (H:=doubling) carol_out
              (after two_joined)
              (after (two_joined ++ [AUnregister carol_out])) EvSilent)
    as (_ & Hh & _ & Habsent & _).
  - exact two_joined_reachable.
  - vm_compute. reflexivity.
  - split; [apply Habsent; vm_compute; reflexivity | rewrite Hh; vm_compute; reflexivity].
Defined.

(** * Further properties of the server *)

Section Registry.
Context `{!GoRuntime}.

(** What each action does outside the log and the channel. *)
Lemma step_shape a w w' e :
  step a w = Some (w', e) →
  match a with
  | ARegister args true =>
      clients (srv w') = <[ID args := dialed w]> (clients (srv w))
      ∧ closed w' = closed w ∧ dialed w' = S (dialed w)
      ∧ tasks w' = tasks w ∧ received w' = received w
  | ARegister _ false => w' = w
  | AUnregister args =>
      dialed w' = dialed w ∧ tasks w' = tasks w ∧ received w' = received w
      ∧ match clients (srv w) !! ID args with
        | Some c => clients (srv w') = delete (ID args) (clients (srv w))
                    ∧ closed w' = closed w ++ [c]
        | None => clients (srv w') = clients (srv w) ∧ closed w' = closed w
        end
  | AChanRecv =>
      clients (srv w') = clients (srv w) ∧ closed w' = closed w
      ∧ dialed w' = dialed w ∧ tasks w' = tasks w
      ∧ received w = None ∧ received w' = head (broadcast (srv w))
  | AFanout =>
      clients (srv w') = clients (srv w) ∧ closed w' = closed w
      ∧ dialed w' = dialed w ∧ received w' = None
      ∧ ∃ msg, received w = Some msg
               ∧ tasks w' = tasks w ++ spawn (dequeued w) msg (clients (srv w))
  | ADeliver i ok =>
      ∃ t, tasks w !! i = Some t ∧ tasks w' = delete i (tasks w)
           ∧ dialed w' = dialed w ∧ received w' = received w
           ∧ if ok then clients (srv w') = clients (srv w)
                        ∧ closed w' = closed w
             else clients (srv w') = delete (t_id t) (clients (srv w))
                  ∧ closed w' = closed w ++ [t_cli t]
  | _ =>
      clients (srv w') = clients (srv w) ∧ closed w' = closed w
      ∧ dialed w' = dialed w ∧ tasks w' = tasks w ∧ received w' = received w
  end.
Proof.
  destruct a; simpl; unfold Register, Unregister, Send, History, chan_send,
    chan_recv, fanout, deliver.
  - destruct dial_ok; [destruct (go_append _ _ _) |]; by intros [= <- _].
  - destruct (clients (srv w) !! ID args);
      destruct (go_append _ _ _); by intros [= <- _].
  - destruct (go_append (mem w) _ _) as [h1 s].
    destruct (go_append h1 _ _). by intros [= <- _].
  - destruct (go_append _ _ _). by intros [= <- _].
  - destruct (sending w !! i); [|done]. case_decide; [|done].
    by intros [= <- _].
  - destruct (received w) as [m0|], (broadcast (srv w)) as [|m q]; try done.
    by intros [= <- _].
  - destruct (received w) as [msg|]; [|done]. intros [= <- _].
    split_and!; try done. by exists msg.
  - destruct (tasks w !! i) as [t|]; [|done].
    destruct ok; intros [= <- _]; by exists t.
Qed.

Lemma registry_ok_new : registry_ok NewChatServer.
Proof.
  unfold registry_ok. simpl. split_and!.
  - intros id c Hc. by rewrite lookup_empty in Hc.
  - intros id id' c Hc. by rewrite lookup_empty in Hc.
  - intros c Hc. by apply elem_of_nil in Hc.
  - intros t Ht. by apply elem_of_nil in Ht.
Qed.

Lemma step_registry_ok a w w' e :
  registry_ok w → step a w = Some (w', e) → registry_ok w'.
Proof.
  intros (Hopen & Hinj & Hcl & Htk) Hstep. apply step_shape in Hstep.
  unfold registry_ok.
  destruct a as [args [] | args | args | | i | | | i ok].
  - destruct Hstep as (-> & -> & -> & -> & _). split_and!.
    + intros id c [[_ <-] | [_ Hc]]%lookup_insert_Some.
      * split; [lia |]. intros Hin%Hcl. lia.
      * destruct (Hopen _ _ Hc). split; [lia | done].
    + intros id id' c [[<- <-] | [Hne Hc]]%lookup_insert_Some
        [[<- Heq] | [Hne' Hc']]%lookup_insert_Some; try done.
      * destruct (Hopen _ _ Hc'). lia.
      * destruct (Hopen _ _ Hc). lia.
      * by eapply Hinj.
    + intros c Hc%Hcl. lia.
    + intros t Ht. destruct (Htk t Ht) as [Hlt Hhome]. split; [lia |].
      intros id [[_ Heq] | [_ Hc]]%lookup_insert_Some; [lia | by apply Hhome].
  - by subst w'.
  - destruct Hstep as (-> & -> & _ & Hreg).
    destruct (clients (srv w) !! ID args) as [c|] eqn:Hc;
      destruct Hreg as [-> ->]; [|done].
    split_and!.
    + intros id c' [Hne Hc']%lookup_delete_Some. destruct (Hopen _ _ Hc').
      split; [done |]. rewrite not_elem_of_app. split; [done |].
      intros ->%list_elem_of_singleton. apply Hne. by eapply Hinj.
    + intros id id' c' [_ H1]%lookup_delete_Some [_ H2]%lookup_delete_Some.
      by eapply Hinj.
    + intros c' [Hin | ->%list_elem_of_singleton]%elem_of_app; [by apply Hcl |].
      by destruct (Hopen _ _ Hc).
    + intros t Ht. destruct (Htk t Ht) as [Hlt Hhome]. split; [done |].
      intros id [_ Hid]%lookup_delete_Some. by apply Hhome.
  - by destruct Hstep as (-> & -> & -> & -> & _).
  - by destruct Hstep as (-> & -> & -> & -> & _).
  - by destruct Hstep as (-> & -> & -> & -> & _).
  - by destruct Hstep as (-> & -> & -> & -> & _).
  - destruct Hstep as (-> & -> & -> & _ & msg & _ & ->). split_and!; try done.
    intros t [Ht | Ht]%elem_of_app; [by apply Htk |].
    apply elem_of_spawn in Ht as (_ & _ & Hsnap & _).
    destruct (Hopen _ _ Hsnap). split; [done |].
    intros id Hid. by eapply Hinj.
  - destruct Hstep as (t & Hi & -> & -> & _ & Hreg).
    assert (t ∈ tasks w) as Ht by (apply list_elem_of_lookup; by exists i).
    destruct (Htk t Ht) as [Hlt Hhome].
    destruct ok; destruct Hreg as [-> ->].
    + split_and!; try done. intros t' Ht'%list_elem_of_delete_inv.
      by apply Htk.
    + split_and!.
      * intros id c [Hne Hc]%lookup_delete_Some. destruct (Hopen _ _ Hc).
        split; [done |]. rewrite not_elem_of_app. split; [done |].
        intros ->%list_elem_of_singleton. apply Hne. symmetry. by apply Hhome.
      * intros id id' c [_ H1]%lookup_delete_Some [_ H2]%lookup_delete_Some.
        by eapply Hinj.
      * intros c [Hin | ->%list_elem_of_singleton]%elem_of_app;
          [by apply Hcl | done].
      * intros t' Ht'%list_elem_of_delete_inv.
        destruct (Htk t' Ht') as [Hlt' Hhome']. split; [done |].
        intros id [_ Hid]%lookup_delete_Some. by apply Hhome'.
Qed.

Lemma reachable_registry_ok w : reachable w → registry_ok w.
Proof.
  intros (acts & es & Hr).
  eapply (run_ind_inv registry_ok);
    [apply step_registry_ok | apply registry_ok_new | done].
Qed.

(** X1: in every reachable state each registry entry holds a connection
    that was dialed and has not been closed, and two identifiers never hold
    the same connection. *)
Theorem registry_holds_open_distinct_connections w :
  reachable w →
  (∀ id c, clients (srv w) !! id = Some c → c < dialed w ∧ c ∉ closed w)
  ∧ (∀ id id' c, clients (srv w) !! id = Some c →
       clients (srv w) !! id' = Some c → id = id').
Proof.
  intros Hreach. destruct (reachable_registry_ok _ Hreach) as (? & ? & _).
  by split.
Qed.

(** Log entry and parked message of each action. *)
Lemma step_announced a w w' e :
  wf w → step a w = Some (w', e) →
  match announced a with
  | Some (m, entry) =>
      history w' = history w ++ [entry]
      ∧ ∃ r, sending w' = sending w ++ [mkParked m r]
  | None => history w' = history w ∧ (is_engine a = false → sending w' = sending w)
  end.
Proof.
  intros Hwf Hstep.
  destruct a as [args [] | args | args | | i | | | i ok];
    try (destruct (engine_keeps_log _ _ _ _ Hstep I) as [Hm Hs];
         unfold history; simpl; by rewrite Hm, Hs);
    simpl in Hstep; simpl.
  - injection Hstep as Hstep. unfold Register in Hstep.
    destruct (go_append _ _ _) as [h s] eqn:Happ. injection Hstep as <- _.
    destruct (go_append_spec _ _ _ _ _ Hwf Happ) as (_ & Hel & _).
    split; [done | by eexists].
  - unfold Register in Hstep. by injection Hstep as <- _.
  - injection Hstep as Hstep. unfold Unregister in Hstep.
    destruct (go_append _ _ _) as [h s] eqn:Happ.
    destruct (go_append_spec _ _ _ _ _ Hwf Happ) as (_ & Hel & _).
    destruct (clients (srv w) !! ID args); injection Hstep as <- _;
      (split; [done | by eexists]).
  - injection Hstep as Hstep.
    destruct (Send_snapshot _ _ _ _ Hwf Hstep) as (r & _ & Hp & Hh & _).
    split; [done | by eexists].
  - injection Hstep as Hstep.
    destruct (History_snapshot _ _ _ Hwf Hstep) as (r & _ & Hsrv & Hh & _).
    split; [done |]. intros _. unfold History in Hstep.
    destruct (go_append _ _ _). by injection Hstep as <- _.
Qed.

(** X2: a Register whose dial succeeds stores the new connection, one that
    no entry held and nobody closed, under the identifier, replacing what
    was there so that the registry's key set gains at most that identifier;
    it leaves the other entries alone, closes nothing, appends
    "User id joined" to the log and parks that notice with the identifier as
    sender. *)
Theorem Register_success_effect args w w1 e :
  reachable w → Register args true w = (w1, e) →
  let joinMsg := "User " +:+ ID args +:+ " joined" in
  e = EvSilent
  ∧ clients (srv w1) !! ID args = Some (dialed w)
  ∧ (∀ id, id ≠ ID args → clients (srv w1) !! id = clients (srv w) !! id)
  ∧ dom (clients (srv w1)) = {[ID args]} ∪ dom (clients (srv w))
  ∧ (∀ id, clients (srv w) !! id ≠ Some (dialed w))
  ∧ (dialed w ∉ closed w)
  ∧ closed w1 = closed w
  ∧ history w1 = history w ++ [joinMsg]
  ∧ sending w1
    = sending w ++ [mkParked (mkMessageArgs (ID args) joinMsg) None].
Proof.
  intros Hreach HReg joinMsg. pose proof (reachable_wf _ Hreach) as Hwf.
  destruct (reachable_registry_ok _ Hreach) as (Hopen & _ & Hcl & _).
  assert (step (ARegister args true) w = Some (w1, e)) as Hstep
    by (change (Some (Register args true w) = Some (w1, e)); by rewrite HReg).
  pose proof (step_shape _ _ _ _ Hstep) as (Hc & Hclosed & _).
  pose proof (step_announced _ _ _ _ Hwf Hstep) as [Hh _].
  assert (w1 = (Register args true w).1) as Hw1 by (by rewrite HReg).
  split_and!.
  - unfold Register in HReg. destruct (go_append _ _ _).
    by injection HReg as _ <-.
  - rewrite Hc. apply lookup_insert_eq.
  - intros id Hne. rewrite Hc. by apply lookup_insert_ne.
  - rewrite Hc. apply dom_insert_L.
  - intros id Hid. destruct (Hopen _ _ Hid). lia.
  - intros Hin%Hcl. lia.
  - done.
  - done.
  - rewrite Hw1. apply Register_parks.
Qed.

(** X3: History returns the whole log, the nil slice when the log is empty,
    and changes nothing of the server: log, registry, channel, parked RPCs
    and deliveries stay as they are. *)
Theorem History_is_read_only w w1 e :
  reachable w → History w = (w1, e) →
  ∃ r, e = EvReturn (Some r)
       ∧ elems (mem w1) r = history w
       ∧ (history w = [] → r = nil_slice ∧ mem w1 = mem w)
       ∧ srv w1 = srv w ∧ history w1 = history w
       ∧ closed w1 = closed w ∧ dialed w1 = dialed w
       ∧ sending w1 = sending w ∧ received w1 = received w
       ∧ tasks w1 = tasks w.
Proof.
  intros Hreach HHist. pose proof (reachable_wf _ Hreach) as Hwf.
  destruct (History_snapshot _ _ _ Hwf HHist) as (r & -> & Hsrv & Hh & Hel & _).
  exists r. unfold History in HHist.
  destruct (go_append _ _ _) as [h r'] eqn:Hcopy.
  injection HHist as <- <-. simpl in *. split_and!; try done.
  intros Hempty. rewrite Hempty in Hcopy. unfold go_append in Hcopy.
  simpl in Hcopy. by injection Hcopy as <- <-.
Qed.

(** X4: whatever an RPC put in the log stays matched in the pipeline: the
    number of log entries is the number of messages parked at the channel,
    buffered in it, in the broadcaster's hands, or already fanned out.  No
    entry goes without its broadcast and none is broadcast twice. *)
Theorem log_entries_match_pipeline w :
  reachable w →
  length (history w)
  = dequeued w + in_hand w + length (broadcast (srv w)) + length (sending w).
Proof.
  intros (acts & es & Hrun).
  pose (J := λ w, wf w ∧ length (history w)
     = dequeued w + in_hand w + length (broadcast (srv w)) + length (sending w)).
  cut (J w); [by intros [_ ?] |].
  apply (run_ind_inv J acts NewChatServer w es); [| by split; [apply wf_new |] | done].
  clear. intros a w w' e [Hwf HJ] Hstep.
  split; [by eapply step_wf |]. unfold in_hand in *.
  pose proof (step_announced _ _ _ _ Hwf Hstep) as Hann.
  pose proof (step_tasks _ _ _ _ Hstep) as Htk.
  pose proof (step_channel _ _ _ _ Hstep) as Hch.
  pose proof (step_shape _ _ _ _ Hstep) as Hsh.
  destruct a as [args [] | args | args | | i | | | i ok]; simpl in *.
  - destruct Hann as [-> [r ->]]. destruct Htk as (-> & _).
    destruct Hch as [-> _]. destruct Hsh as (_ & _ & _ & _ & ->).
    rewrite !length_app. simpl. lia.
  - by subst w'.
  - destruct Hann as [-> [r ->]]. destruct Htk as (-> & _).
    destruct Hch as [-> _]. destruct Hsh as (_ & _ & -> & _).
    rewrite !length_app. simpl. lia.
  - destruct Hann as [-> [r ->]]. destruct Htk as (-> & _).
    destruct Hch as [-> _]. destruct Hsh as (_ & _ & _ & _ & ->).
    rewrite !length_app. simpl. lia.
  - destruct Hann as [-> _]. destruct Htk as (-> & _).
    destruct Hch as [-> ->]. destruct Hsh as (_ & _ & _ & _ & ->). lia.
  - destruct Hann as [-> _]. destruct Htk as (-> & _).
    destruct Hch as (p & Hi & _ & -> & -> & _).
    destruct Hsh as (_ & _ & _ & _ & ->).
    rewrite length_app, length_delete by eauto. simpl.
    apply lookup_lt_Some in Hi. lia.
  - destruct Hann as [-> _]. destruct Htk as (-> & _).
    destruct Hch as (m & Hnone & Hq & -> & ->). rewrite Hnone, Hq in HJ.
    simpl in HJ. lia.
  - destruct Hann as [-> _]. destruct Htk as (msg & Hsome & -> & _).
    destruct Hch as [-> ->]. destruct Hsh as (_ & _ & _ & -> & _).
    rewrite Hsome in HJ. lia.
  - destruct Hann as [-> _]. destruct Htk as (t & _ & _ & -> & _).
    destruct Hch as [-> ->]. destruct Hsh as (t' & _ & _ & _ & -> & _). lia.
Qed.

Lemma logged_mono w w' m :
  history w `prefix_of` history w' → logged w m → logged w' m.
Proof.
  intros Hp [? | ?]; [left | right]; by eapply elem_of_prefix.
Qed.

Lemma pipeline_logged_new : pipeline_logged NewChatServer.
Proof.
  unfold pipeline_logged. simpl. split_and!; try done.
  - intros p Hp. by apply elem_of_nil in Hp.
  - intros m Hm. by apply elem_of_nil in Hm.
  - intros t Ht. by apply elem_of_nil in Ht.
Qed.

Lemma step_pipeline_logged a w w' e :
  wf w → pipeline_logged w → step a w = Some (w', e) → pipeline_logged w'.
Proof.
  intros Hwf (Hpark & Hbuf & Hrecv & Htask) Hstep.
  pose proof (step_announced _ _ _ _ Hwf Hstep) as Hann.
  pose proof (step_channel _ _ _ _ Hstep) as Hch.
  pose proof (step_shape _ _ _ _ Hstep) as Hsh.
  assert (∀ m, logged w m → logged w' m) as Hmono.
  { intros m. apply logged_mono.
    by destruct (step_grows _ _ _ _ Hwf Hstep) as (_ & ? & _). }
  assert (∀ m entry r,
            history w' = history w ++ [entry] →
            sending w' = sending w ++ [mkParked m r] →
            broadcast (srv w') = broadcast (srv w) →
            received w' = received w → tasks w' = tasks w →
            Text m = entry ∨ Sender m +:+ ": " +:+ Text m = entry →
            pipeline_logged w') as Hrpc.
  { intros m entry r Hh Hs Hb Hr Ht Hentry. unfold pipeline_logged.
    rewrite Hs, Hb, Hr, Ht. split_and!; eauto.
    intros p [Hp | ->%list_elem_of_singleton]%elem_of_app; [eauto |].
    unfold logged. rewrite Hh. simpl.
    destruct Hentry as [-> | ->]; [left | right];
      apply elem_of_app; right; by apply list_elem_of_singleton. }
  destruct a as [args [] | args | args | | i | | | i ok]; simpl in *.
  - destruct Hann as [Hh [r Hs]]. destruct Hch as [Hb _].
    destruct Hsh as (_ & _ & _ & Ht & Hr). eapply Hrpc; eauto.
  - by subst w'.
  - destruct Hann as [Hh [r Hs]]. destruct Hch as [Hb _].
    destruct Hsh as (_ & Ht & Hr & _). eapply Hrpc; eauto.
  - destruct Hann as [Hh [r Hs]]. destruct Hch as [Hb _].
    destruct Hsh as (_ & _ & _ & Ht & Hr). eapply Hrpc; eauto.
  - destruct Hch as [Hb Hs]. destruct Hsh as (_ & _ & _ & Ht & Hr).
    unfold pipeline_logged. rewrite Hs, Hb, Hr, Ht. split_and!; eauto.
  - destruct Hch as (p & Hi & _ & Hb & Hs & _).
    destruct Hsh as (_ & _ & _ & Ht & Hr).
    unfold pipeline_logged. rewrite Hs, Hb, Hr, Ht. split_and!; eauto.
    + intros p' Hp'%list_elem_of_delete_inv. eauto.
    + intros m [Hm | ->%list_elem_of_singleton]%elem_of_app; [eauto |].
      apply Hmono, Hpark, list_elem_of_lookup. by exists i.
  - destruct Hch as (m & _ & Hq & Hr & Hs).
    destruct Hsh as (_ & _ & _ & Ht & _).
    unfold pipeline_logged. rewrite Hs, Hr, Ht. split_and!; eauto.
    + intros m' Hm'. apply Hmono, Hbuf. rewrite Hq. by right.
    + intros m' [= <-]. apply Hmono, Hbuf. rewrite Hq. by left.
  - destruct Hch as [Hb Hs].
    destruct Hsh as (_ & _ & _ & Hr & msg & Hsome & Ht).
    unfold pipeline_logged. rewrite Hs, Hb, Hr, Ht. split_and!; eauto.
    + done.
    + intros t [Hin | Hin]%elem_of_app; [eauto |].
      apply elem_of_spawn in Hin as (_ & -> & _). eauto.
  - destruct Hch as [Hb Hs]. destruct Hsh as (t & _ & Ht & _ & Hr & _).
    unfold pipeline_logged. rewrite Hs, Hb, Hr, Ht. split_and!; eauto.
    intros t' Ht'%list_elem_of_delete_inv. eauto.
Qed.

Lemma run_calls_logged acts w w' es t ok :
  wf w → pipeline_logged w → run acts w = Some (w', es) →
  EvCall t ok ∈ es → logged w' (t_msg t).
Proof.
  revert w es. induction acts as [|a acts IH]; intros w es Hwf Hpl.
  - intros [= _ <-] Hin. by apply elem_of_nil in Hin.
  - intros Hrun. pose proof Hrun as (w1 & e & es' & Hstep & Hrest & ->)%run_cons.
    intros [<- | Hin]%elem_of_cons.
    + apply logged_mono with w.
      { by destruct (run_grows _ _ _ _ Hwf Hrun) as (_ & ? & _). }
      apply step_tasks in Hstep.
      destruct a; try (destruct Hstep as (_ & _ & Hno); exfalso; by eapply Hno).
      * by destruct Hstep as (msg & _ & _ & _ & ?).
      * destruct Hstep as (t' & Hi & [= <- <-] & _).
        destruct Hpl as (_ & _ & _ & Htask). apply Htask.
        apply list_elem_of_lookup. by exists i.
    + eapply (IH w1); [by eapply step_wf | by eapply step_pipeline_logged
                      | done | done].
Qed.

(** X5: a message is handed to [cli.Call] only if the log has its entry:
    along every run from a new server, each message delivered (or tried) is
    in the final log, as its own text for a join or leave notice, or as
    "sender: text" for a Send. *)
Theorem delivered_messages_are_logged acts w es t ok :
  run acts NewChatServer = Some (w, es) → EvCall t ok ∈ es →
  Text (t_msg t) ∈ history w
  ∨ (Sender (t_msg t) +:+ ": " +:+ Text (t_msg t)) ∈ history w.
Proof.
  intros Hrun Hin.
  by apply (run_calls_logged acts NewChatServer w es t ok wf_new
              pipeline_logged_new).
Qed.

(** Actions other than a successful Register, an Unregister and a failed
    delivery leave the registry alone. *)
Lemma run_untouched acts w w' es :
  run acts w = Some (w', es) →
  (∀ a, a ∈ acts → touches_registry a = false) →
  clients (srv w') = clients (srv w) ∧ closed w' = closed w
  ∧ dialed w' = dialed w.
Proof.
  revert w es. induction acts as [|a acts IH]; intros w es.
  - by intros [= <- _] _.
  - intros (w1 & e & es' & Hstep & Hrest & _)%run_cons Hno.
    assert (touches_registry a = false) as Ha by (apply Hno; by left).
    destruct (IH w1 es' Hrest) as (-> & -> & ->).
    { intros a' Ha'. apply Hno. by right. }
    apply step_shape in Hstep.
    destruct a as [args [] | args | args | | i | | | i []]; try done.
    + by subst w1.
    + by destruct Hstep as (? & ? & ? & _).
    + by destruct Hstep as (? & ? & ? & _).
    + by destruct Hstep as (? & ? & ? & _).
    + by destruct Hstep as (? & ? & ? & _).
    + by destruct Hstep as (? & ? & ? & _).
    + by destruct Hstep as (t & _ & _ & ? & _ & ? & ?).
Qed.

Lemma run_engine_keeps_log acts w w' es :
  run acts w = Some (w', es) → Forall (λ a, is_engine a = true) acts →
  mem w' = mem w ∧ msgs (srv w') = msgs (srv w).
Proof.
  revert w es. induction acts as [|a acts IH]; intros w es.
  - by intros [= <- _] _.
  - intros (w1 & e & es' & Hstep & Hrest & _)%run_cons [Ha Hall]%Forall_cons.
    destruct (IH w1 es' Hrest Hall) as [-> ->].
    apply (engine_keeps_log _ _ _ _ Hstep). by destruct a.
Qed.

(** X6: the registry, the closed connections and the dial count change only
    through a Register whose dial succeeds, an Unregister, or a failed
    delivery: a run of Sends, History calls, failed Registers, channel
    traffic, fan-outs and successful deliveries leaves them as they were. *)
Theorem registry_changes_only_by_register_unregister_eviction acts w w' es :
  run acts w = Some (w', es) →
  (∀ a, a ∈ acts → touches_registry a = false) →
  clients (srv w') = clients (srv w) ∧ closed w' = closed w
  ∧ dialed w' = dialed w.
Proof. apply run_untouched. Qed.

(** X7: an identifier that is not in the registry stays out of it as long as
    no Register for it succeeds, and in that time no delivery goroutine is
    started for it: every [cli.Call] made to it belongs to a goroutine that
    was already in flight. *)
Theorem absent_id_gets_no_new_delivery id acts w w' es :
  clients (srv w) !! id = None → run acts w = Some (w', es) →
  (∀ args, ARegister args true ∈ acts → ID args ≠ id) →
  clients (srv w') !! id = None
  ∧ ∀ t ok, EvCall t ok ∈ es → t_id t = id → t ∈ tasks w.
Proof.
  intros Habs Hrun Hnoreg.
  cut (∀ P : task → Prop, (∀ t, t ∈ tasks w → t_id t = id → P t) →
         clients (srv w') !! id = None
         ∧ ∀ t ok, EvCall t ok ∈ es → t_id t = id → P t).
  { intros Hcut. apply (Hcut (λ t, t ∈ tasks w)). auto. }
  intros P. revert w es Habs Hrun Hnoreg.
  induction acts as [|a acts IH]; intros w es Habs Hrun Hnoreg Hold.
  - injection Hrun as <- <-. split; [done |].
    intros t ok Hin. by apply elem_of_nil in Hin.
  - apply run_cons in Hrun as (w1 & e & es' & Hstep & Hrest & ->).
    pose proof (step_tasks _ _ _ _ Hstep) as Htk.
    pose proof (step_shape _ _ _ _ Hstep) as Hsh.
    assert (clients (srv w1) !! id = None
            ∧ (∀ t, t ∈ tasks w1 → t_id t = id → P t)
            ∧ (∀ t ok, e = EvCall t ok → t_id t = id → P t))
      as (Habs1 & Hold1 & Hhead).
    { destruct a as [args [] | args | args | | i | | | i ok].
      - destruct Hsh as (-> & _ & _ & -> & _). destruct Htk as (_ & _ & Hno).
        split_and!; [| done | intros t ok ->; by destruct (Hno t ok)].
        rewrite lookup_insert_ne; [done |]. apply Hnoreg. by left.
      - subst w1. destruct Htk as (_ & _ & Hno).
        split_and!; [done | done | intros t ok ->; by destruct (Hno t ok)].
      - destruct Hsh as (_ & -> & _ & Hreg). destruct Htk as (_ & _ & Hno).
        split_and!; [| done | intros t ok ->; by destruct (Hno t ok)].
        destruct (clients (srv w) !! ID args); destruct Hreg as [-> _];
          [by apply lookup_delete_None; right | done].
      - destruct Hsh as (-> & _ & _ & -> & _). destruct Htk as (_ & _ & Hno).
        split_and!; [done | done | intros t ok ->; by destruct (Hno t ok)].
      - destruct Hsh as (-> & _ & _ & -> & _). destruct Htk as (_ & _ & Hno).
        split_and!; [done | done | intros t ok ->; by destruct (Hno t ok)].
      - destruct Hsh as (-> & _ & _ & -> & _). destruct Htk as (_ & _ & Hno).
        split_and!; [done | done | intros t ok ->; by destruct (Hno t ok)].
      - destruct Hsh as (-> & _ & _ & -> & _). destruct Htk as (_ & _ & Hno).
        split_and!; [done | done | intros t ok ->; by destruct (Hno t ok)].
      - destruct Hsh as (-> & _ & _ & _ & msg & _ & ->).
        destruct Htk as (_ & _ & _ & _ & ->).
        split_and!; [done | | done].
        intros t [Ht | Ht]%elem_of_app Hid; [by apply Hold |].
        apply elem_of_spawn in Ht as (_ & _ & Hsnap & _). congruence.
      - destruct Hsh as (t & Hi & -> & _ & _ & Hreg).
        destruct Htk as (t' & Hi' & -> & _).
        rewrite Hi in Hi'. injection Hi' as <-.
        split_and!.
        + destruct ok; destruct Hreg as [-> _];
            [done | by apply lookup_delete_None; right].
        + intros t' Ht'%list_elem_of_delete_inv. by apply Hold.
        + intros t' ok' [= <- <-]. apply Hold, list_elem_of_lookup.
          by exists i. }
    destruct (IH w1 es' Habs1 Hrest) as [Hfin Hcalls]; [| done |].
    { intros args Hin. apply Hnoreg. by right. }
    split; [done |].
    intros t ok [<- | Hin]%elem_of_cons; [by eapply Hhead | by eapply Hcalls].
Qed.

(** ** Draining the pipeline *)

Lemma calmly_refl w : calmly w w.
Proof. exists [], []. by split. Qed.

Lemma calmly_step a w w1 e w' :
  step a w = Some (w1, e) → is_engine a = true → touches_registry a = false →
  calmly w1 w' → calmly w w'.
Proof.
  intros Hstep Ha Hb (acts & es & Hrun & Hall).
  exists (a :: acts), (e :: es). split.
  - simpl. by rewrite Hstep, Hrun.
  - by apply Forall_cons.
Qed.

Lemma calmly_trans w1 w2 w3 : calmly w1 w2 → calmly w2 w3 → calmly w1 w3.
Proof.
  intros (acts1 & es1 & Hrun1 & Hall1) (acts2 & es2 & Hrun2 & Hall2).
  exists (acts1 ++ acts2), (es1 ++ es2). split.
  - apply run_app. by exists w2, es1, es2.
  - by apply Forall_app.
Qed.

Lemma fanout_enabled w msg :
  received w = Some msg → ∃ w', step AFanout w = Some (w', EvSilent).
Proof. intros Hr. simpl. unfold fanout. rewrite Hr. eauto. Qed.

Lemma chan_recv_enabled w m q :
  received w = None → broadcast (srv w) = m :: q →
  ∃ w', step AChanRecv w = Some (w', EvSilent).
Proof. intros Hr Hq. simpl. unfold chan_recv. rewrite Hr, Hq. eauto. Qed.

Lemma chan_send_enabled w i p :
  sending w !! i = Some p → length (broadcast (srv w)) < broadcast_cap →
  ∃ w', step (AChanSend i) w = Some (w', EvReturn (p_reply p)).
Proof.
  intros Hi Hlt. simpl. unfold chan_send. rewrite Hi.
  case_decide; [eauto | done].
Qed.

Lemma deliver_enabled w i t ok :
  tasks w !! i = Some t → ∃ w', step (ADeliver i ok) w = Some (w', EvCall t ok).
Proof. intros Hi. simpl. unfold deliver. rewrite Hi. destruct ok; eauto. Qed.

(** The broadcaster finishes the loop body it is in. *)
Lemma drain_hand w :
  ∃ w', calmly w w' ∧ received w' = None ∧ sending w' = sending w
        ∧ broadcast (srv w') = broadcast (srv w).
Proof.
  destruct (received w) as [msg|] eqn:Hr.
  - destruct (fanout_enabled _ _ Hr) as [w' Hstep]. exists w'.
    pose proof (step_channel _ _ _ _ Hstep) as [Hb Hs].
    pose proof (step_shape _ _ _ _ Hstep) as (_ & _ & _ & Hr' & _).
    split_and!; try done. eapply calmly_step; [done.. | apply calmly_refl].
  - exists w. split_and!; try done. apply calmly_refl.
Qed.

(** It then empties the channel buffer, one receive and fan-out at a time. *)
Lemma drain_buffer q w :
  broadcast (srv w) = q → received w = None →
  ∃ w', calmly w w' ∧ received w' = None ∧ sending w' = sending w
        ∧ broadcast (srv w') = [].
Proof.
  revert w. induction q as [|m q IH]; intros w Hq Hr.
  - exists w. split_and!; try done. apply calmly_refl.
  - destruct (chan_recv_enabled _ _ _ Hr Hq) as [w1 Hs1].
    pose proof (step_channel _ _ _ _ Hs1) as (m' & _ & Hq1 & Hr1 & Hsend1).
    rewrite Hq in Hq1. injection Hq1 as <- Hq1.
    destruct (fanout_enabled _ _ Hr1) as [w2 Hs2].
    pose proof (step_channel _ _ _ _ Hs2) as [Hb2 Hsend2].
    pose proof (step_shape _ _ _ _ Hs2) as (_ & _ & _ & Hr2 & _).
    destruct (IH w2) as (w' & Hcalm & Hr' & Hsend' & Hb'); [congruence | done |].
    exists w'. split_and!; try done; [| congruence].
    eapply calmly_step; [done.. |]. eapply calmly_step; [done.. |]. done.
Qed.

(** With the buffer empty every parked RPC gets its message through. *)
Lemma drain_parked n w :
  length (sending w) = n → received w = None → broadcast (srv w) = [] →
  ∃ w', calmly w w' ∧ received w' = None ∧ sending w' = []
        ∧ broadcast (srv w') = [].
Proof.
  revert w. induction n as [|n IH]; intros w Hn Hr Hb.
  - exists w. split_and!; try done; [apply calmly_refl |].
    by apply nil_length_inv.
  - destruct (sending w) as [|p ps] eqn:Hs; [done |].
    destruct (chan_send_enabled w 0 p) as [w1 Hs1].
    { by rewrite Hs. } { rewrite Hb. simpl. unfold broadcast_cap. lia. }
    pose proof (step_channel _ _ _ _ Hs1) as (p' & _ & _ & Hb1 & Hsend1 & _).
    pose proof (step_shape _ _ _ _ Hs1) as (_ & _ & _ & _ & Hr1).
    rewrite Hs in Hsend1. simpl in Hsend1.
    destruct (drain_buffer _ w1 eq_refl) as (w2 & Hcalm2 & Hr2 & Hsend2 & Hb2);
      [congruence |].
    destruct (IH w2) as (w' & Hcalm & Hr' & Hsend' & Hb'); try done.
    { rewrite Hsend2, Hsend1. simpl in Hn. lia. }
    exists w'. split_and!; try done.
    eapply calmly_step; [done.. |]. by eapply calmly_trans.
Qed.

(** Last, every delivery goroutine runs, its call succeeding. *)
Lemma drain_tasks n w :
  length (tasks w) = n →
  ∃ w', calmly w w' ∧ tasks w' = [] ∧ received w' = received w
        ∧ sending w' = sending w ∧ broadcast (srv w') = broadcast (srv w).
Proof.
  revert w. induction n as [|n IH]; intros w Hn.
  - exists w. split_and!; try done; [apply calmly_refl |].
    by apply nil_length_inv.
  - destruct (tasks w) as [|t ts] eqn:Ht; [done |].
    destruct (deliver_enabled w 0 t true) as [w1 Hs1]; [by rewrite Ht |].
    pose proof (step_channel _ _ _ _ Hs1) as [Hb1 Hsend1].
    pose proof (step_shape _ _ _ _ Hs1) as (t' & _ & Ht1 & _ & Hr1 & _).
    rewrite Ht in Ht1. simpl in Ht1.
    destruct (IH w1) as (w' & Hcalm & Ht' & Hr' & Hsend' & Hb').
    { rewrite Ht1. simpl in Hn. lia. }
    exists w'. split_and!; try congruence.
    eapply calmly_step; [done.. |]. done.
Qed.

(** X8: the pipeline never deadlocks.  From any state the channel and the
    broadcaster can, by themselves and with every delivery succeeding, get
    every parked RPC its return and every message its fan-out and its
    deliveries, ending with nothing pending; the log, the registry and the
    connections are then as they were. *)
Theorem pipeline_can_drain w :
  ∃ acts w' es,
    run acts w = Some (w', es)
    ∧ Forall (λ a, is_engine a = true) acts
    ∧ quiescent w'
    ∧ history w' = history w
    ∧ clients (srv w') = clients (srv w)
    ∧ closed w' = closed w.
Proof.
  destruct (drain_hand w) as (w1 & Hc1 & Hr1 & Hs1 & Hb1).
  destruct (drain_buffer _ w1 eq_refl Hr1) as (w2 & Hc2 & Hr2 & Hs2 & Hb2).
  destruct (drain_parked _ w2 eq_refl Hr2 Hb2) as (w3 & Hc3 & Hr3 & Hs3 & Hb3).
  destruct (drain_tasks _ w3 eq_refl) as (w4 & Hc4 & Ht4 & Hr4 & Hs4 & Hb4).
  pose proof (calmly_trans _ _ _ Hc1 (calmly_trans _ _ _ Hc2
                (calmly_trans _ _ _ Hc3 Hc4))) as (acts & es & Hrun & Hall).
  assert (Forall (λ a, is_engine a = true) acts) as Heng
    by (eapply Forall_impl; [done |]; by intros a [? _]).
  exists acts, w4, es.
  destruct (run_engine_keeps_log _ _ _ _ Hrun Heng) as [Hmem Hmsgs].
  destruct (run_untouched _ _ _ _ Hrun) as (Hcl & Hclosed & _).
  { intros a Ha. rewrite Forall_forall in Hall. by destruct (Hall a Ha). }
  split_and!; try done.
  - unfold quiescent. split_and!; congruence.
  - unfold history. by rewrite Hmem, Hmsgs.
Qed.

(** An RPC that appends to the log is silent until its channel send, and
    the reply it parks, if it has one, holds the log as it then is. *)
Lemma step_rpc a m entry w w1 e :
  wf w → announced a = Some (m, entry) → step a w = Some (w1, e) →
  e = EvSilent
  ∧ ∃ ro, sending w1 = sending w ++ [mkParked m ro]
          ∧ ∀ r, ro = Some r → elems (mem w1) r = history w1.
Proof.
  intros Hwf Hann Hstep.
  destruct a as [args [] | args | args | | i | | | i ok]; try done;
    simpl in Hann; injection Hann as <- <-; simpl in Hstep;
    injection Hstep as Hstep.
  - unfold Register in Hstep. destruct (go_append _ _ _).
    injection Hstep as <- <-. split; [done |]. by exists None.
  - unfold Unregister in Hstep. destruct (go_append _ _ _).
    destruct (clients (srv w) !! ID args); injection Hstep as <- <-;
      (split; [done |]); by exists None.
  - destruct (Send_snapshot _ _ _ _ Hwf Hstep) as (r & -> & Hs & _ & Hel & _).
    split; [done |]. exists (Some r). split; [done |]. by intros r' [= <-].
Qed.

Lemma rpc_enabled a w :
  is_engine a = false → ∃ w1 e, step a w = Some (w1, e).
Proof.
  destruct a; try done; intros _; simpl.
  - destruct (Register args dial_ok w) as [w1 e]. eauto.
  - destruct (Unregister args w) as [w1 e]. eauto.
  - destruct (Send args w) as [w1 e]. eauto.
  - destruct (History w) as [w1 e]. eauto.
Qed.

(** X9: on a server with nothing pending, a Register, Unregister or Send
    followed by its channel send, the broadcaster's receive and the fan-out
    appends its entry to the log, returns to its caller (a Send with the log
    including the entry) and starts one delivery of its message for each
    identifier then registered other than the message's sender, and for
    nobody else: the others hear of a join, a leave and a message, the
    origin does not. *)
Theorem announcement_reaches_all_others a m entry w :
  reachable w → quiescent w → announced a = Some (m, entry) →
  ∃ w' ro,
    run [a; AChanSend 0; AChanRecv; AFanout] w
      = Some (w', [EvSilent; EvReturn ro; EvSilent; EvSilent])
    ∧ history w' = history w ++ [entry]
    ∧ (∀ r, ro = Some r → elems (mem w') r = history w')
    ∧ tasks w' = spawn (dequeued w) m (clients (srv w'))
    ∧ (∀ id cli, mkTask (dequeued w) id cli m ∈ tasks w'
                 ↔ clients (srv w') !! id = Some cli ∧ id ≠ Sender m)
    ∧ sending w' = [] ∧ broadcast (srv w') = [] ∧ received w' = None.
Proof.
  intros Hreach (Hs & Hb & Hr & Ht) Hann.
  pose proof (reachable_wf _ Hreach) as Hwf.
  destruct (rpc_enabled a w) as (w1 & e1 & Hstep1).
  { by destruct a as [? [] | | | | | | |]. }
  destruct (step_rpc _ _ _ _ _ _ Hwf Hann Hstep1) as (-> & ro & Hs1 & Hro).
  pose proof (step_announced _ _ _ _ Hwf Hstep1) as Hh1. rewrite Hann in Hh1.
  destruct Hh1 as [Hh1 _]. rewrite Hs in Hs1. simpl in Hs1.
  assert (broadcast (srv w1) = [] ∧ tasks w1 = [] ∧ received w1 = None
          ∧ dequeued w1 = dequeued w) as (Hb1 & Ht1 & Hr1 & Hd1).
  { pose proof (step_channel _ _ _ _ Hstep1) as Hch.
    pose proof (step_shape _ _ _ _ Hstep1) as Hsh.
    pose proof (step_tasks _ _ _ _ Hstep1) as Htk.
    destruct a as [args [] | args | args | | i | | | i ok]; try done.
    - destruct Hch as [-> _]. destruct Hsh as (_ & _ & _ & -> & ->).
      by destruct Htk as (-> & _).
    - destruct Hch as [-> _]. destruct Hsh as (_ & -> & -> & _).
      by destruct Htk as (-> & _).
    - destruct Hch as [-> _]. destruct Hsh as (_ & _ & _ & -> & ->).
      by destruct Htk as (-> & _). }
  destruct (chan_send_enabled w1 0 (mkParked m ro)) as [w2 Hstep2].
  { by rewrite Hs1. } { rewrite Hb1. simpl. unfold broadcast_cap. lia. }
  pose proof (step_channel _ _ _ _ Hstep2) as (p & Hp & _ & Hb2 & Hs2 & _).
  rewrite Hs1 in Hp, Hs2. injection Hp as <-. simpl in Hs2, Hb2.
  rewrite Hb1 in Hb2. simpl in Hb2.
  pose proof (step_shape _ _ _ _ Hstep2) as (Hc2 & _ & _ & Ht2 & Hr2).
  pose proof (step_tasks _ _ _ _ Hstep2) as (Hd2 & _).
  destruct (engine_keeps_log _ _ _ _ Hstep2 I) as [Hm2 Hl2].
  destruct (chan_recv_enabled w2 m []) as [w3 Hstep3]; [congruence | done |].
  pose proof (step_channel _ _ _ _ Hstep3) as (m' & _ & Hb3 & Hr3 & Hs3).
  rewrite Hb2 in Hb3. injection Hb3 as <- Hb3.
  pose proof (step_shape _ _ _ _ Hstep3) as (Hc3 & _ & _ & Ht3 & _).
  pose proof (step_tasks _ _ _ _ Hstep3) as (Hd3 & _).
  destruct (engine_keeps_log _ _ _ _ Hstep3 I) as [Hm3 Hl3].
  destruct (fanout_enabled _ _ Hr3) as [w4 Hstep4].
  pose proof (step_channel _ _ _ _ Hstep4) as [Hb4 Hs4].
  pose proof (step_shape _ _ _ _ Hstep4)
    as (Hc4 & _ & _ & Hr4 & msg & Hmsg & Ht4).
  rewrite Hr3 in Hmsg. injection Hmsg as <-.
  destruct (engine_keeps_log _ _ _ _ Hstep4 I) as [Hm4 Hl4].
  assert (tasks w4 = spawn (dequeued w) m (clients (srv w4))) as Htasks.
  { rewrite Ht4, Ht3, Ht2, Ht1, Hd3, Hd2, Hd1, Hc4. done. }
  assert (history w4 = history w1) as Hh4.
  { unfold history. by rewrite Hm4, Hl4, Hm3, Hl3, Hm2, Hl2. }
  exists w4, ro. split_and!.
  - cbn [run]. rewrite Hstep1, Hstep2, Hstep3, Hstep4. done.
  - by rewrite Hh4.
  - intros r Hr'. rewrite Hh4, <- (Hro r Hr').
    unfold elems, backing. by rewrite Hm4, Hm3, Hm2.
  - done.
  - intros id cli. rewrite Htasks, elem_of_spawn. simpl.
    split; [by intros (_ & _ & ? & ?) | by intros [? ?]].
  - congruence.
  - congruence.
  - done.
Qed.

(** X14: what an RPC appended to the log shows in every later History
    reply, at the index where it was appended. *)
Theorem later_History_shows_entry a m entry acts w w' es :
  reachable w → announced a = Some (m, entry) →
  run (a :: acts ++ [AHistory]) w = Some (w', es) →
  ∃ r, last es = Some (EvReturn (Some r))
       ∧ elems (mem w') r !! length (history w) = Some entry.
Proof.
  intros Hreach Hann Hrun. pose proof (reachable_wf _ Hreach) as Hwf.
  apply run_cons in Hrun as (w1 & e1 & es1 & Hstep1 & Hrun & ->).
  apply run_app in Hrun as (w2 & es2 & es3 & Hrun & Hlast & ->).
  apply run_cons in Hlast as (w3 & e3 & es4 & Hstep3 & [= <- <-] & ->).
  pose proof (step_announced _ _ _ _ Hwf Hstep1) as Hh1. rewrite Hann in Hh1.
  destruct Hh1 as [Hh1 _].
  pose proof (step_wf _ _ _ _ Hwf Hstep1) as Hwf1.
  assert (wf w2) as Hwf2
    by (eapply (run_ind_inv wf); [apply step_wf | exact Hwf1 | done]).
  simpl in Hstep3. injection Hstep3 as Hstep3.
  destruct (History_snapshot _ _ _ Hwf2 Hstep3) as (r & -> & _ & _ & Hel & _).
  exists r. split.
  - rewrite app_comm_cons. apply last_snoc.
  - rewrite Hel.
    destruct (run_grows _ _ _ _ Hwf1 Hrun) as (_ & Hpre & _).
    eapply prefix_lookup_Some; [| exact Hpre].
    fold (history w1). rewrite Hh1. apply list_lookup_middle. done.
Qed.

End Registry.

(** * The client *)

Section Client.
Context `{!GoRuntime}.

Lemma dial_loop_result n i b dial :
  match (dial_loop n i b dial).1 with
  | Some k => i ≤ k < i + n ∧ dial k = true ∧ ∀ j, i ≤ j < k → dial j = false
  | None => ∀ j, i ≤ j < i + n → dial j = false
  end.
Proof.
  revert i b. induction n as [|n IH]; intros i b; simpl.
  - intros j Hj. lia.
  - destruct (dial i) eqn:Hi; simpl.
    + split_and!; [lia | lia | done |]. intros j Hj. lia.
    + specialize (IH (S i) (wrap64 (b * 2))).
      destruct (dial_loop n (S i) (wrap64 (b * 2)) dial) as [[k|] slept];
        simpl in *.
      * destruct IH as (Hk & Hdk & Hbefore). split_and!; [lia | lia | done |].
        intros j Hj. destruct (decide (j = i)) as [-> | Hne]; [done |].
        apply Hbefore. lia.
      * intros j Hj. destruct (decide (j = i)) as [-> | Hne]; [done |].
        apply IH. lia.
Qed.

(** X10: [dialWithRetry] makes at most five attempts and returns the first
    one that connects: it succeeds at attempt k exactly when k is among the
    first five, connects, and every earlier attempt failed; it gives up
    exactly when all five fail. *)
Theorem dialWithRetry_first_success dial :
  (∀ k, (dialWithRetry dial).1 = Some k
        ↔ k < 5 ∧ dial k = true ∧ ∀ j, j < k → dial j = false)
  ∧ ((dialWithRetry dial).1 = None ↔ ∀ j, j < 5 → dial j = false).
Proof.
  pose proof (dial_loop_result 5 0 Second dial) as Hres.
  fold (dialWithRetry dial) in Hres.
  destruct (dialWithRetry dial).1 as [k'|]; split.
  - intros k. split.
    + intros [= <-]. destruct Hres as (Hk & Hd & Hb).
      split_and!; [lia | done |]. intros j Hj. apply Hb. lia.
    + intros (Hk & Hd & Hb). destruct Hres as (Hk' & Hd' & Hb'). f_equal.
      destruct (decide (k' < k)) as [Hlt | Hge].
      { rewrite (Hb k' Hlt) in Hd'. done. }
      destruct (decide (k < k')) as [Hlt | Hge'].
      { rewrite Hb' in Hd by lia. done. }
      lia.
  - split; [done |]. intros Hall. destruct Hres as (Hk & Hd & _).
    rewrite Hall in Hd by lia. done.
  - intros k. split; [done |]. intros (Hk & Hd & _).
    rewrite Hres in Hd by lia. done.
  - split; [|done]. intros _ j Hj. apply Hres. lia.
Qed.

(** X11: before each retry, and once more after the fifth failure,
    [dialWithRetry] sleeps; the waits start at one second and double, with
    no overflow of the duration, so that k failed attempts cost 2^k - 1
    seconds and giving up costs 31. *)
Theorem dialWithRetry_backoff dial :
  let slept := (dialWithRetry dial).2 in
  let failed := match (dialWithRetry dial).1 with Some k => k | None => 5 end in
  slept = (λ j, (Second * 2 ^ Z.of_nat j)%Z) <$> seq 0 failed
  ∧ total_sleep slept = (Second * (2 ^ Z.of_nat failed - 1))%Z
  ∧ (total_sleep slept ≤ 31 * Second)%Z.
Proof.
  unfold dialWithRetry, dial_loop.
  repeat (destruct (dial _); [vm_compute; split_and!; done |]).
  vm_compute. split_and!; done.
Qed.

Lemma dialWithRetry_all_fail dial :
  (∀ j, j < 5 → dial j = false) →
  dialWithRetry dial
  = (None, [Second; 2 * Second; 4 * Second; 8 * Second; 16 * Second]%Z).
Proof.
  intros Hall. unfold dialWithRetry, dial_loop.
  rewrite !Hall by lia. vm_compute. done.
Qed.

Example dialWithRetry_third_attempt :
  dialWithRetry up_at_third = (Some 2, [Second; 2 * Second]%Z).
Proof. vm_compute. reflexivity. Qed.

Lemma string_length_app (a b : string) :
  String.length (a +:+ b) = String.length a + String.length b.
Proof. induction a as [|c a IH]; simpl; [done | by rewrite IH]. Qed.

(** X12: for a typed line the client already puts its name in front of the
    text it sends, and the server puts the sender's name in front again when
    it logs: the log entry reads "name: name: text" while the other clients,
    which print the text as sent (between line feeds, before a new prompt),
    show "name: text".  The two never agree. *)
Theorem chat_line_logged_with_name_twice name text w w1 e :
  reachable w → Send (chat_args name text) w = (w1, e) →
  let shown := name +:+ ": " +:+ text in
  history w1 = history w ++ [name +:+ ": " +:+ shown]
  ∧ (∃ r, sending w1 = sending w ++ [mkParked (chat_args name text) r])
  ∧ formatIncoming (chat_args name text) = shown
  ∧ Receive (chat_args name text) = nl +:+ shown +:+ nl +:+ "> "
  ∧ name +:+ ": " +:+ shown ≠ shown
  ∧ ∀ addr h l, l_text l = text → text ≠ "exit" → text ≠ "history" →
      head (client_line name addr (Some h) l).2
      = Some (CCall h (ReqSend (chat_args name text))).
Proof.
  intros Hreach HSend shown. pose proof (reachable_wf _ Hreach) as Hwf.
  destruct (Send_snapshot _ _ _ _ Hwf HSend) as (r & _ & Hs & Hh & _).
  split_and!.
  - done.
  - by exists (Some r).
  - done.
  - done.
  - intros Heq. apply (f_equal String.length) in Heq.
    rewrite !string_length_app in Heq. simpl in Heq. lia.
  - intros addr h l <- Hexit Hhist. unfold client_line.
    rewrite !decide_False by done.
    destruct (l_res1 l); [done |].
    destruct (dialWithRetry (l_dial l)) as [[k|] slept]; [|done].
    by destruct (l_res2 l).
Qed.

(** X13: when a Send fails and all five redials fail too, the client goes
    on with a nil connection: the old one is closed and nothing replaces it.
    Whatever comes next, a further line (even "exit") or the end of input,
    the process panics on the nil connection; it issues no RPC after the
    failed Send, so it never unregisters, and it never reaches the close of
    its listener. *)
Theorem failed_reconnect_ends_in_panic name addr h l ls :
  l_text l ≠ "exit" → l_text l ≠ "history" → l_res1 l = None →
  (∀ j, j < 5 → l_dial l j = false) →
  (client_line name addr (Some h) l).1 = (Continue, None)
  ∧ ∃ effs, client_session name addr h (l :: ls) = (Panic, effs)
      ∧ (∀ h' r, CCall h' r ∈ effs →
           h' = h ∧ r = ReqSend (chat_args name (l_text l)))
      ∧ CClose h ∈ effs ∧ CCloseListener ∉ effs.
Proof.
  intros Hexit Hhist Hres Hdial.
  assert (client_line name addr (Some h) l
          = (Continue, None,
             ([CCall h (ReqSend (chat_args name (l_text l)));
               CLog "send error"; CClose h]
              ++ redial_effects
                   [Second; 2 * Second; 4 * Second; 8 * Second; 16 * Second]%Z)
             ++ [CLog "reconnect failed"])) as Hline.
  { unfold client_line. rewrite !decide_False by done.
    by rewrite Hres, (dialWithRetry_all_fail _ Hdial). }
  split; [by rewrite Hline |].
  unfold client_session. cbn [client_loop]. rewrite Hline.
  destruct ls as [|l' ls]; cbn [client_loop client_line];
    eexists; (split; [reflexivity |]); simpl;
    (split_and!;
     [ intros h' r Hin; rewrite !elem_of_cons, elem_of_nil in Hin;
       repeat (destruct Hin as [Hin | Hin];
               [try discriminate Hin; by injection Hin as -> -> |]);
       done
     | rewrite !elem_of_cons; do 3 right; by left
     | intros Hin; rewrite !elem_of_cons, elem_of_nil in Hin;
       repeat (destruct Hin as [Hin | Hin]; [discriminate Hin |]);
       done ]).
Qed.

End Client.

(** * The further properties at work *)

Lemma registry_holds_open_distinct_connections_witness :
  1 < dialed (after two_joined) ∧ 1 ∉ closed (after two_joined).
Proof.
  destruct (registry_holds_open_distinct_connections (H:=doubling)
              (after two_joined)) as [Hopen _];
    [exact two_joined_reachable |].
  apply (Hopen "Bob" 1). vm_compute. reflexivity.
Defined.

Lemma Register_success_effect_witness :
  clients (srv (after (two_joined ++ [ARegister carol_out true]))) !! "Carol"
  = Some 2
  ∧ history (after (two_joined ++ [ARegister carol_out true]))
    = ["User Alice joined"; "User Bob joined"; "User Carol joined"].
Proof.
  destruct (Register_success_effect (H:=doubling) carol_out (after two_joined)
              (after (two_joined ++ [ARegister carol_out true])) EvSilent)
    as (_ & Hnew & _ & _ & _ & _ & _ & Hh & _).
  - exact two_joined_reachable.
  - vm_compute. reflexivity.
  - split; [exact Hnew | rewrite Hh; vm_compute; reflexivity].
Defined.

Lemma History_is_read_only_witness :
  ∃ r, elems (mem (after (two_joined ++ [AHistory]))) r
       = ["User Alice joined"; "User Bob joined"]
       ∧ srv (after (two_joined ++ [AHistory])) = srv (after two_joined).
Proof.
  destruct (History_is_read_only (H:=doubling) (after two_joined)
              (after (two_joined ++ [AHistory]))
              (EvReturn (Some (mkSlice (Some 2) 2 2))))
    as (r & _ & Hel & _ & Hsrv & _).
  - exact two_joined_reachable.
  - vm_compute. reflexivity.
  - exists r. split; [rewrite Hel; vm_compute; reflexivity | exact Hsrv].
Defined.

Lemma log_entries_match_pipeline_witness :
  length (history (after first_received))
  = dequeued (after first_received) + 1
    + length (broadcast (srv (after first_received)))
    + length (sending (after first_received)).
Proof.
  rewrite (log_entries_match_pipeline (H:=doubling) (after first_received)).
  - vm_compute. reflexivity.
  - apply after_reachable. vm_compute. discriminate.
Defined.

Lemma delivered_messages_are_logged_witness :
  Text alice_joined ∈ history (after (first_fanned ++ [ADeliver 0 true]))
  ∨ (Sender alice_joined +:+ ": " +:+ Text alice_joined)
      ∈ history (after (first_fanned ++ [ADeliver 0 true])).
Proof.
  apply (delivered_messages_are_logged (H:=doubling)
           (first_fanned ++ [ADeliver 0 true])
           (after (first_fanned ++ [ADeliver 0 true]))
           [EvSilent; EvReturn None; EvSilent; EvReturn None; EvSilent;
            EvSilent; EvCall to_bob true]
           to_bob true).
  - vm_compute. reflexivity.
  - apply list_elem_of_lookup. exists 6. reflexivity.
Defined.

Lemma registry_changes_only_by_register_unregister_eviction_witness :
  clients (srv (after (two_joined ++ quiet_acts)))
  = clients (srv (after two_joined))
  ∧ closed (after (two_joined ++ quiet_acts)) = closed (after two_joined).
Proof.
  destruct (registry_changes_only_by_register_unregister_eviction
              (H:=doubling) quiet_acts (after two_joined)
              (after (two_joined ++ quiet_acts))
              [EvSilent; EvReturn (Some (mkSlice (Some 3) 3 3)); EvSilent;
               EvSilent; EvCall to_bob true])
    as (Hc & Hcl & _).
  - vm_compute. reflexivity.
  - intros a Ha. unfold quiet_acts in Ha.
    rewrite !elem_of_cons, elem_of_nil in Ha.
    repeat (destruct Ha as [-> | Ha]; [reflexivity |]). destruct Ha.
  - split; [exact Hc | exact Hcl].
Defined.

Lemma absent_id_gets_no_new_delivery_witness :
  clients (srv (after (two_joined ++ quiet_acts))) !! "Carol" = None.
Proof.
  destruct (absent_id_gets_no_new_delivery (H:=doubling) "Carol" quiet_acts
              (after two_joined) (after (two_joined ++ quiet_acts))
              [EvSilent; EvReturn (Some (mkSlice (Some 3) 3 3)); EvSilent;
               EvSilent; EvCall to_bob true])
    as [Habs _].
  - vm_compute. reflexivity.
  - vm_compute. reflexivity.
  - intros args Ha. unfold quiet_acts in Ha.
    rewrite !elem_of_cons, elem_of_nil in Ha.
    repeat (destruct Ha as [Ha | Ha]; [discriminate Ha |]). destruct Ha.
  - exact Habs.
Defined.

Lemma announcement_reaches_all_others_witness :
  ∃ w', tasks w' = [mkTask 2 "Bob" 1 hi]
        ∧ history w'
          = ["User Alice joined"; "User Bob joined"; "Alice: hi"].
Proof.
  destruct (announcement_reaches_all_others (H:=doubling) (ASend hi) hi
              "Alice: hi" (after settled))
    as (w' & ro & Hrun & Hh & _ & Ht & _).
  - apply after_reachable. vm_compute. discriminate.
  - vm_compute. split_and!; reflexivity.
  - reflexivity.
  - exists w'. split; [| rewrite Hh; vm_compute; reflexivity].
    rewrite Ht. apply run_cons in Hrun as (w1 & e1 & es1 & Hs1 & Hrun & _).
    apply run_cons in Hrun as (w2 & e2 & es2 & Hs2 & Hrun & _).
    apply run_cons in Hrun as (w3 & e3 & es3 & Hs3 & Hrun & _).
    apply run_cons in Hrun as (w4 & e4 & es4 & Hs4 & [= <- _] & _).
    rewrite (proj1 (step_shape _ _ _ _ Hs4)).
    rewrite (proj1 (step_shape _ _ _ _ Hs3)).
    rewrite (proj1 (step_shape _ _ _ _ Hs2)).
    rewrite (proj1 (step_shape _ _ _ _ Hs1)).
    vm_compute. reflexivity.
Defined.

Lemma later_History_shows_entry_witness :
  ∃ r, elems (mem (after (two_joined ++ [ASend hi; AUnregister bob_in;
                                          AHistory]))) r !! 2
       = Some "Alice: hi".
Proof.
  destruct (later_History_shows_entry (H:=doubling) (ASend hi) hi "Alice: hi"
              [AUnregister bob_in] (after two_joined)
              (after (two_joined ++ [ASend hi; AUnregister bob_in; AHistory]))
              [EvSilent; EvSilent; EvReturn (Some (mkSlice (Some 4) 4 4))])
    as (r & _ & Hat).
  - exact two_joined_reachable.
  - reflexivity.
  - vm_compute. reflexivity.
  - exists r. exact Hat.
Defined.

Lemma chat_line_logged_with_name_twice_witness :
  history (after (two_joined ++ [ASend (chat_args "Alice" "hi")]))
  = ["User Alice joined"; "User Bob joined"; "Alice: Alice: hi"]
  ∧ formatIncoming (chat_args "Alice" "hi") = "Alice: hi".
Proof.
  destruct (chat_line_logged_with_name_twice (H:=doubling) "Alice" "hi"
              (after two_joined)
              (after (two_joined ++ [ASend (chat_args "Alice" "hi")]))
              EvSilent)
    as (Hh & _ & Hshown & _).
  - exact two_joined_reachable.
  - vm_compute. reflexivity.
  - split; [rewrite Hh; vm_compute; reflexivity | exact Hshown].
Defined.

Lemma failed_reconnect_ends_in_panic_witness :
  ∃ effs, client_session "Alice" "127.0.0.1:5000" 0
            [lost_line; mkLine "exit" None None never_up]
          = (Panic, effs).
Proof.
  destruct (failed_reconnect_ends_in_panic "Alice" "127.0.0.1:5000" 0
              lost_line [mkLine "exit" None None never_up])
    as (_ & effs & Hsession & _).
  - vm_compute. discriminate.
  - vm_compute. discriminate.
  - reflexivity.
  - intros j _. reflexivity.
  - exists effs. exact Hsession.
Defined.
